(** * The component generator backend: extractor, validator, orchestrator

    A shallow embedding of [backend/generator.py], [backend/validator.py]
    and [backend/corrector.py].

    Python strings are modelled as lists of characters ([list ascii]); a
    character stands for the code point of the same number, so the model
    covers the texts whose code points are below 256.  The character
    classes of Python's [str] methods and of the [re] module are written
    out for that range.  Regular expressions are kept as syntax trees and
    run by a backtracking matcher that enumerates matches in the order in
    which Python's engine tries them. *)

From Stdlib Require Import Ascii String NArith Lia Sorted.
From stdpp Require Import base list sorting.

Set Default Proof Using "Type".

Abbreviation str := (list ascii).

(** A Python string literal. *)
Definition py (s : string) : str := list_ascii_of_string s.

(** ** Characters *)

Module Char.

Definition code (c : ascii) : N := N_of_ascii c.

Definition between (lo hi : N) (c : ascii) : bool :=
  (lo <=? code c)%N && (code c <=? hi)%N.

Definition lit (a : ascii) (c : ascii) : bool := Ascii.eqb a c.

Definition one_of (s : string) (c : ascii) : bool :=
  existsb (Ascii.eqb c) (list_ascii_of_string s).

Definition none_of (s : string) (c : ascii) : bool := negb (one_of s c).

(** [str.isspace] on one character, which is also the class [\s] of a
    [str] pattern: TAB..CR, FS..US, SPACE, NEL and NBSP. *)
Definition isspace (c : ascii) : bool :=
  between 9 13 c || between 28 32 c || (code c =? 133)%N || (code c =? 160)%N.

(** [[0-9]]; below 256 it is also the class [\d]. *)
Definition isdigit (c : ascii) : bool := between 48 57 c.

Definition isupper_ascii (c : ascii) : bool := between 65 90 c.
Definition islower_ascii (c : ascii) : bool := between 97 122 c.

(** [[0-9a-fA-F]] *)
Definition ishex (c : ascii) : bool :=
  isdigit c || between 97 102 c || between 65 70 c.

(** The class [\w] of a [str] pattern: alphanumeric or underscore. *)
Definition isword (c : ascii) : bool :=
  isdigit c || isupper_ascii c || islower_ascii c || (code c =? 95)%N
  || (code c =? 170)%N || (code c =? 178)%N || (code c =? 179)%N
  || (code c =? 181)%N || (code c =? 185)%N || (code c =? 186)%N
  || between 188 190 c || between 192 214 c || between 216 246 c
  || between 248 255 c.

(** [.] without DOTALL. *)
Definition notnl (c : ascii) : bool := negb (code c =? 10)%N.

(** [[\s\S]], and [.] with DOTALL. *)
Definition any (c : ascii) : bool := true.

(** [str.lower] on one character. *)
Definition lower (c : ascii) : ascii :=
  if isupper_ascii c || (between 192 222 c && negb (code c =? 215)%N)
  then ascii_of_N (code c + 32) else c.

(** A literal pattern character under IGNORECASE.  The pattern letters of
    this program are ASCII letters, whose only case variants below 256
    are the ASCII ones. *)
Definition is_nocase (a : ascii) (c : ascii) : bool :=
  Ascii.eqb (lower a) (lower c).

(** [str.isprintable] on one character, as [repr] uses it. *)
Definition isprintable (c : ascii) : bool :=
  between 32 126 c || (between 161 255 c && negb (code c =? 173)%N).

Definition hexdigit (n : N) : ascii :=
  if (n <? 10)%N then ascii_of_N (48 + n) else ascii_of_N (87 + n).

End Char.

Definition NL : ascii := ascii_of_N 10.
Definition SQ : ascii := ascii_of_N 39.   (* single quote *)
Definition DQ : ascii := ascii_of_N 34.   (* double quote *)
Definition BQ : ascii := ascii_of_N 96.   (* backquote *)

(** ** Python [str] operations *)

Module Str.

Fixpoint eqb (a b : str) : bool :=
  match a, b with
  | [], [] => true
  | x :: a', y :: b' => Ascii.eqb x y && eqb a' b'
  | _, _ => false
  end.

(** [s.startswith(p)] *)
Fixpoint startswith (p s : str) : bool :=
  match p, s with
  | [], _ => true
  | x :: p', y :: s' => Ascii.eqb x y && startswith p' s'
  | _ :: _, [] => false
  end.

(** [sub in s] *)
Fixpoint contains (sub s : str) : bool :=
  startswith sub s ||
  match s with
  | [] => false
  | _ :: s' => contains sub s'
  end.

(** [x in l] for a list of strings *)
Definition mem (x : str) (l : list str) : bool := existsb (eqb x) l.

(** [s.lstrip()], [s.rstrip()], [s.strip()] *)
Fixpoint lstrip (s : str) : str :=
  match s with
  | c :: s' => if Char.isspace c then lstrip s' else s
  | [] => []
  end.

Definition rstrip (s : str) : str := rev (lstrip (rev s)).

Definition strip (s : str) : str := rstrip (lstrip s).

(** [s.split('\n')]: the pieces between the newlines, at least one. *)
Fixpoint split_lines (s : str) : list str :=
  match s with
  | [] => [[]]
  | c :: s' =>
      if Ascii.eqb c NL then [] :: split_lines s'
      else match split_lines s' with
           | l :: ls => (c :: l) :: ls
           | [] => [[c]]
           end
  end.

(** [sep.join(l)] *)
Fixpoint join (sep : str) (l : list str) : str :=
  match l with
  | [] => []
  | [x] => x
  | x :: l' => x ++ sep ++ join sep l'
  end.

(** [s.lower()] *)
Definition lower (s : str) : str := map Char.lower s.

(** Occurrences of a non-empty [old], scanned left to right without
    overlap; [skip] counts the characters of the current occurrence that
    are still to be passed. *)
Fixpoint replace_go (old new : str) (skip : nat) (s : str) : str :=
  match s with
  | [] => []
  | c :: s' =>
      match skip with
      | S k => replace_go old new k s'
      | O => if startswith old s
             then new ++ replace_go old new (length old - 1) s'
             else c :: replace_go old new 0 s'
      end
  end.

(** [s.replace(old, new)]; an empty [old] matches between all
    characters. *)
Definition replace (old new s : str) : str :=
  match old with
  | [] => new ++ flat_map (fun c => c :: new) s
  | _ :: _ => replace_go old new 0 s
  end.

Fixpoint count_go (sub : str) (skip : nat) (s : str) : nat :=
  match s with
  | [] => 0
  | _ :: s' =>
      match skip with
      | S k => count_go sub k s'
      | O => if startswith sub s
             then S (count_go sub (length sub - 1) s')
             else count_go sub 0 s'
      end
  end.

(** [s.count(sub)]: non-overlapping occurrences. *)
Definition count (sub s : str) : nat :=
  match sub with
  | [] => S (length s)
  | _ :: _ => count_go sub 0 s
  end.

(** The part of [s] before the first occurrence of [sep] and the part
    after it. *)
Fixpoint cut (sep s : str) : option (str * str) :=
  if startswith sep s then Some ([], drop (length sep) s)
  else match s with
       | [] => None
       | c :: s' =>
           match cut sep s' with
           | Some (a, b) => Some (c :: a, b)
           | None => None
           end
       end.

(** [s.split(sep, 1)] for a non-empty [sep] *)
Definition split1 (sep s : str) : list str :=
  match cut sep s with
  | Some (a, b) => [a; b]
  | None => [s]
  end.

(** [repr(s)] *)
Definition repr_char (q : ascii) (c : ascii) : str :=
  if Ascii.eqb c q || Ascii.eqb c "\"%char then ["\"%char; c]
  else if Ascii.eqb c (ascii_of_N 9) then py "\t"
  else if Ascii.eqb c NL then py "\n"
  else if Ascii.eqb c (ascii_of_N 13) then py "\r"
  else if Char.isprintable c then [c]
  else py "\x" ++ [Char.hexdigit (Char.code c / 16); Char.hexdigit (Char.code c mod 16)].

Definition repr (s : str) : str :=
  let q := if existsb (Ascii.eqb SQ) s && negb (existsb (Ascii.eqb DQ) s)
           then DQ else SQ in
  q :: flat_map (repr_char q) s ++ [q].

(** [repr(l)] and [str(l)] for a list of strings *)
Definition repr_list (l : list str) : str :=
  py "[" ++ join (py ", ") (map repr l) ++ py "]".

End Str.

(** ** Exceptions

    A Python expression that can raise returns a [result]. *)

Inductive exn : Type := ValueError | AttributeError | TypeError.

Inductive result (A : Type) : Type :=
| Ok (a : A)
| Raise (e : exn).
Arguments Ok {A} a.
Arguments Raise {A} e.

#[global] Instance result_ret : MRet result := fun A a => Ok a.

#[global] Instance result_fmap : FMap result := fun A B f x =>
  match x with
  | Ok a => Ok (f a)
  | Raise e => Raise e
  end.

#[global] Instance result_bind : MBind result := fun A B f x =>
  match x with
  | Ok a => f a
  | Raise e => Raise e
  end.

(** [a, b = l]: a list that does not hold exactly two items raises. *)
Definition unpack2 {A} (l : list A) : result (A * A) :=
  match l with
  | [a; b] => Ok (a, b)
  | _ => Raise ValueError
  end.

(** A method call on a value that may be [None]. *)
Definition attr {A} (o : option A) : result A :=
  match o with
  | Some a => Ok a
  | None => Raise AttributeError
  end.

(** An operand that must not be [None]. *)
Definition operand {A} (o : option A) : result A :=
  match o with
  | Some a => Ok a
  | None => Raise TypeError
  end.

Fixpoint traverse {A B} (f : A -> result B) (l : list A) : result (list B) :=
  match l with
  | [] => Ok []
  | a :: l' =>
      match f a with
      | Ok b => match traverse f l' with
                | Ok bs => Ok (b :: bs)
                | Raise e => Raise e
                end
      | Raise e => Raise e
      end
  end.

(** ** Python [re]: patterns and the backtracking matcher *)

Module Re.

(** A pattern.  Every repetition of this program's patterns is over a
    single character set, so [Rep] repeats a set; [greedy] tells [*]
    from [*?]. *)
Inductive t : Type :=
| Emp                                       (* the empty pattern *)
| Chr (p : ascii -> bool)                   (* one character of a set *)
| Rep (greedy : bool) (lo : nat) (hi : option nat) (p : ascii -> bool)
| Cat (r1 r2 : t)
| Alt (r1 r2 : t)
| Grp (n : nat) (r : t)                     (* capturing group number n *)
| Ref (n : nat)                             (* backreference \n *)
| Bol                                       (* ^ under MULTILINE *)
| EolM                                      (* $ under MULTILINE *)
| Eol                                       (* $ *)
| Wb.                                       (* \b *)

Declare Scope re_scope.
Delimit Scope re_scope with re.
Bind Scope re_scope with t.
Infix "·" := Cat (at level 40, left associativity) : re_scope.
Infix "∣" := Alt (at level 50, left associativity) : re_scope.

(** A literal text, and the same under IGNORECASE. *)
Fixpoint lit_l (s : str) : t :=
  match s with
  | [] => Emp
  | [c] => Chr (Char.lit c)
  | c :: s' => Cat (Chr (Char.lit c)) (lit_l s')
  end.
Definition lit (s : string) : t := lit_l (list_ascii_of_string s).

Fixpoint liti_l (s : str) : t :=
  match s with
  | [] => Emp
  | [c] => Chr (Char.is_nocase c)
  | c :: s' => Cat (Chr (Char.is_nocase c)) (liti_l s')
  end.
Definition liti (s : string) : t := liti_l (list_ascii_of_string s).

Definition star (p : ascii -> bool) : t := Rep true 0 None p.        (* p*  *)
Definition plus (p : ascii -> bool) : t := Rep true 1 None p.        (* p+  *)
Definition opt (p : ascii -> bool) : t := Rep true 0 (Some 1) p.     (* p?  *)
Definition lazy (p : ascii -> bool) : t := Rep false 0 None p.       (* p*? *)
Definition atleast (n : nat) (p : ascii -> bool) : t := Rep true n None p.   (* p{n,} *)
Definition range (n k : nat) (p : ascii -> bool) : t := Rep true n (Some k) p. (* p{n,k} *)

(** The captured groups of a match in progress. *)
Definition groups : Type := list (nat * str).

Fixpoint group (n : nat) (g : groups) : option str :=
  match g with
  | [] => None
  | (k, w) :: g' => if Nat.eqb n k then Some w else group n g'
  end.

(** Every match of [r] gives group [k] a text. *)
Fixpoint binds (k : nat) (r : t) : bool :=
  match r with
  | Grp n r' => Nat.eqb k n || binds k r'
  | Cat r1 r2 => binds k r1 || binds k r2
  | Alt r1 r2 => binds k r1 && binds k r2
  | _ => false
  end.



(** The length of the longest prefix of [s] inside the set [p], up to
    the bound [hi]. *)
Fixpoint run (p : ascii -> bool) (hi : option nat) (s : str) : nat :=
  match hi, s with
  | Some O, _ => 0
  | _, [] => 0
  | _, c :: s' => if p c then S (run p (pred <$> hi) s') else 0
  end.

(** The character before the position reached after [n] characters of
    [s], when [prev] is the one before [s]. *)
Definition prev_at (prev : option ascii) (s : str) (n : nat) : option ascii :=
  match last (take n s) with
  | Some c => Some c
  | None => prev
  end.

Definition is_word (o : option ascii) : bool :=
  match o with Some c => Char.isword c | None => false end.

(** [matches r prev s g]: all the ways in which [r] matches at the start
    of [s], in the engine's order of preference; each way gives the number
    of characters taken and the groups.  [prev] is the character before
    [s] in the subject, if any. *)
Fixpoint matches (r : t) (prev : option ascii) (s : str) (g : groups)
  : list (nat * groups) :=
  match r with
  | Emp => [(0, g)]
  | Chr p =>
      match s with
      | c :: _ => if p c then [(1, g)] else []
      | [] => []
      end
  | Rep greedy lo hi p =>
      let k := run p hi s in
      let counts := seq lo (S k - lo) in
      map (fun n => (n, g)) (if greedy then rev counts else counts)
  | Cat r1 r2 =>
      flat_map (fun '(n1, g1) =>
                  map (fun '(n2, g2) => (n1 + n2, g2))
                      (matches r2 (prev_at prev s n1) (drop n1 s) g1))
               (matches r1 prev s g)
  | Alt r1 r2 => matches r1 prev s g ++ matches r2 prev s g
  | Grp k r => map (fun '(n, g') => (n, (k, take n s) :: g')) (matches r prev s g)
  | Ref k =>
      match group k g with
      | Some w => if Str.startswith w s then [(length w, g)] else []
      | None => []
      end
  | Bol =>
      match prev with
      | None => [(0, g)]
      | Some c => if Ascii.eqb c NL then [(0, g)] else []
      end
  | EolM =>
      match s with
      | [] => [(0, g)]
      | c :: _ => if Ascii.eqb c NL then [(0, g)] else []
      end
  | Eol =>
      match s with
      | [] => [(0, g)]
      | [c] => if Ascii.eqb c NL then [(0, g)] else []
      | _ => []
      end
  | Wb => if xorb (is_word prev) (is_word (head s)) then [(0, g)] else []
  end.

(** The match the engine reports at one position: the first way, or the
    first non-empty way when the previous match was empty and ended
    here ([must_advance]). *)
Definition match_here (r : t) (must_advance : bool) (prev : option ascii) (s : str)
  : option (nat * groups) :=
  List.find (fun '(n, _) => negb must_advance || negb (Nat.eqb n 0))
            (matches r prev s []).

(** A match: where it starts, its text, its groups. *)
Record found : Type := Found { start : nat; text : str; captures : groups }.

Fixpoint search_from (r : t) (prev : option ascii) (s : str) : option found :=
  match match_here r false prev s with
  | Some (n, g) => Some (Found 0 (take n s) g)
  | None =>
      match s with
      | [] => None
      | c :: s' =>
          match search_from r (Some c) s' with
          | Some f => Some (Found (S (start f)) (text f) (captures f))
          | None => None
          end
      end
  end.

(** [re.search(r, s)] *)
Definition search (r : t) (s : str) : option found := search_from r None s.


(** A match found by the repeated search of [sub], [findall] and
    [split]: the text skipped since the previous match, the matched text,
    the groups. *)
Record hit : Type := Hit { gap : str; whole : str; caps : groups }.

(** The matches that successive searches report at one position: one, or
    an empty one followed by a non-empty one. *)
Definition hits_here (r : t) (prev : option ascii) (s : str) : list (nat * groups) :=
  match match_here r false prev s with
  | None => []
  | Some (O, g) =>
      (O, g) :: match match_here r true prev s with
                | Some h => [h]
                | None => []
                end
  | Some (S n, g) => [(S n, g)]
  end.

Definition emit (gp : str) (s : str) (hs : list (nat * groups)) : list hit :=
  match hs with
  | [] => []
  | (n, g) :: hs' => Hit gp (take n s) g :: map (fun '(n', g') => Hit [] (take n' s) g') hs'
  end.

Definition taken (hs : list (nat * groups)) : nat :=
  match last hs with Some (n, _) => n | None => 0 end.

(** The loop shared by [sub], [findall] and [split]: search, record the
    match, search again from its end.  The text is walked once; [skip]
    counts the characters of the last match still to be passed, [gp]
    holds (reversed) the text skipped since that match.  The result is
    the matches in order and the text after the last one. *)
Fixpoint scan (r : t) (skip : nat) (gp : str) (prev : option ascii) (s : str)
  : list hit * str :=
  match skip, s with
  | S k, c :: s' => scan r k gp (Some c) s'
  | S _, [] => ([], rev gp)
  | O, _ =>
      match hits_here r prev s with
      | [] =>
          match s with
          | c :: s' => scan r 0 (c :: gp) (Some c) s'
          | [] => ([], rev gp)
          end
      | hs =>
          match s with
          | [] => (emit (rev gp) s hs, [])
          | c :: s' =>
              let '(more, tl) :=
                match taken hs with
                | O => scan r 0 [c] (Some c) s'
                | S k => scan r k [] (Some c) s'
                end in
              (emit (rev gp) s hs ++ more, tl)
          end
      end
  end.

Definition finditer (r : t) (s : str) : list hit * str := scan r 0 [] None s.

(** The first [count] matches, all of them when [count] is 0. *)
Definition limit {A} (count : nat) (l : list A) : list A * list A :=
  match count with
  | O => (l, [])
  | S _ => (take count l, drop count l)
  end.

Definition untouched (hs : list hit) : str :=
  flat_map (fun h => gap h ++ whole h) hs.

(** [re.sub(r, repl, s, count)], with the replacement given as a function
    of the match, as Python allows. *)
Definition sub (r : t) (repl : hit -> str) (s : str) (count : nat) : str :=
  let '(hs, tl) := finditer r s in
  let '(used, others) := limit count hs in
  flat_map (fun h => gap h ++ repl h) used ++ untouched others ++ tl.

(** [re.sub(r, f, s, count)] with a callable [f] that may raise. *)
Definition sub_with (r : t) (f : hit -> result str) (s : str) (count : nat)
  : result str :=
  let '(hs, tl) := finditer r s in
  let '(used, others) := limit count hs in
  match traverse (fun h => match f h with
                           | Ok w => Ok (gap h ++ w)
                           | Raise e => Raise e
                           end) used with
  | Ok pieces => Ok (concat pieces ++ untouched others ++ tl)
  | Raise e => Raise e
  end.

(** [re.findall(r, s)] for a pattern without groups: the matched texts. *)
Definition findall (r : t) (s : str) : list str := map whole (finditer r s).1.

(** [\1] in a replacement template and [findall] with one group: the
    text of the group, empty when the group took no part. *)
Definition group_text (n : nat) (h : hit) : str := default [] (group n (caps h)).

(** [re.findall(r, s)] for a pattern with exactly one group. *)
Definition findall1 (r : t) (s : str) : list str :=
  map (group_text 1) (finditer r s).1.

(** [r.split(s, maxsplit)] for a pattern without groups: the texts
    between the matches. *)
Definition split (r : t) (s : str) (maxsplit : nat) : list str :=
  let '(hs, tl) := finditer r s in
  let '(used, others) := limit maxsplit hs in
  map gap used ++ [untouched others ++ tl].

End Re.


(** ** [design_system.json]

    The file is read at import time into [DESIGN_SYSTEM].  The code looks
    at [rules.allowed_colors], at three optional keys for the allowed
    radii, at [rules.required_font] and at the dump of [tokens]. *)

Record design_system : Type := DesignSystem {
  allowed_colors : list str;
  required_font : str;
  border_radius_values : option (list str);
  allowed_radii : option (list str);
  allowed_radii_values : option (list str);
  tokens_dump : str                    (* json.dumps(DESIGN_SYSTEM["tokens"], indent=2) *)
}.

(** [a or b] where [a] comes from [dict.get]: [None] and the empty list
    are false. *)
Definition py_or (a : option (list str)) (b : list str) : list str :=
  match a with
  | Some (x :: l) => x :: l
  | _ => b
  end.

(** ** The model service

    [client.chat.completions.create] is a call to a remote model.  The
    world holds the requests sent so far; what the model answers to a
    request may depend on all of them.  A call that returns gives a text;
    calls that fail or hang are outside the model. *)

Record message : Type := Message { role : str; content : str }.

Definition request : Type := list message.

Definition world : Type := list request.

(** A computation that talks to the model and may raise. *)
Definition io (A : Type) : Type := world -> result (A * world).

#[global] Instance io_ret : MRet io := fun A a w => Ok (a, w).

#[global] Instance io_bind : MBind io := fun A B f x w =>
  match x w with
  | Ok (a, w') => f a w'
  | Raise e => Raise e
  end.

Definition lift {A} (x : result A) : io A := fun w =>
  match x with
  | Ok a => Ok (a, w)
  | Raise e => Raise e
  end.

(** [client.chat.completions.create(...).choices[0].message.content];
    [reply] is the model: its answer to a request, given the earlier
    requests. *)
Definition chat (reply : world -> request -> str) (messages : request) : io str :=
  fun w => Ok (reply w messages, w ++ [messages]).

(** ** [generator.py] *)

(** The dict that [generate_component] returns. *)
Record component : Type := Component { ts : str; html : str; raw : str }.

Module Generator.
Import Re.
Local Open Scope re_scope.

(** [_clean_output] *)
Definition _clean_output (text : str) : str :=
  let lines := Str.split_lines text in
  let cleaned_lines :=
    List.filter (fun line => negb (Str.startswith (py "```") (Str.strip line))) lines in
  Str.strip (Str.join [NL] cleaned_lines).

Definition quote (c : ascii) : bool := Char.lit SQ c || Char.lit DQ c.
Definition quote3 (c : ascii) : bool := quote c || Char.lit BQ c.

(** [(?m)^\s*(A|B|C)\s*$] with [A = Attempt\s+\d+\s+failed.*],
    [B = Auto-correcting\.*] and [C = INFO:.*] *)
Definition log_line_re : Re.t :=
  Bol · star Char.isspace
  · Grp 1 (lit "Attempt" · plus Char.isspace · plus Char.isdigit · plus Char.isspace
             · lit "failed" · star Char.notnl
           ∣ lit "Auto-correcting" · star (Char.lit ".")
           ∣ lit "INFO:" · star Char.notnl)
  · star Char.isspace · EolM.

(** [\(no\s+html.*?\ )] without the blank, under IGNORECASE *)
Definition aside_re : Re.t :=
  lit "(" · liti "no" · plus Char.isspace · liti "html" · lazy Char.notnl · lit ")".

(** [-{3,}\s*HTML\s*-{3,}], IGNORECASE *)
Definition sep_pattern : Re.t :=
  atleast 3 (Char.lit "-") · star Char.isspace · liti "HTML" · star Char.isspace
  · atleast 3 (Char.lit "-").

(** [<(div|section|button|nav|header|footer|a\b)], IGNORECASE *)
Definition tag_re : Re.t :=
  lit "<" · Grp 1 (liti "div" ∣ liti "section" ∣ liti "button" ∣ liti "nav"
                   ∣ liti "header" ∣ liti "footer" ∣ liti "a" · Wb).

(** [(import|@Component|export|import\s+\{)], IGNORECASE *)
Definition code_start_re : Re.t :=
  Grp 1 (liti "import" ∣ liti "@Component" ∣ liti "export"
         ∣ liti "import" · plus Char.isspace · lit "{").

(** [<] *)
Definition lt_re : Re.t := lit "<".

(** [\s*([-]{3,}|[`]{3,})\s*$] *)
Definition trailer_re : Re.t :=
  star Char.isspace · Grp 1 (atleast 3 (Char.lit "-") ∣ atleast 3 (Char.lit BQ))
  · star Char.isspace · Eol.

(** [template\s*:\s*(Q)([\s\S]*?)\1], where [Q] is the set of the single
    quote, the double quote and the backquote *)
Definition tpl_re : Re.t :=
  lit "template" · star Char.isspace · lit ":" · star Char.isspace
  · Grp 1 (Chr quote3) · Grp 2 (lazy Char.any) · Ref 1.

(** [,?\s*template\s*:\s*(Q).*?\1] under DOTALL, with the same [Q] *)
Definition tpl_field_re : Re.t :=
  opt (Char.lit ",") · star Char.isspace · lit "template" · star Char.isspace
  · lit ":" · star Char.isspace · Grp 1 (Chr quote3) · lazy Char.any · Ref 1.

(** [,\s*,] *)
Definition commas_re : Re.t := lit "," · star Char.isspace · lit ",".

(** [,\s*(\})] *)
Definition comma_brace_re : Re.t := lit "," · star Char.isspace · Grp 1 (lit "}").

(** [templateUrl\s*:\s*q], where [q] is the set of the single and the
    double quote *)
Definition template_url_start_re : Re.t :=
  lit "templateUrl" · star Char.isspace · lit ":" · star Char.isspace · Chr quote.

(** [(@Component\s*\(\s*\{)] *)
Definition decorator_re : Re.t :=
  Grp 1 (lit "@Component" · star Char.isspace · lit "(" · star Char.isspace · lit "{").

(** [\bngModel\b] *)
Definition ngmodel_re : Re.t := Wb · lit "ngModel" · Wb.

(** [imports\s*:\s*\[[^\]]*\]] *)
Definition imports_re : Re.t :=
  lit "imports" · star Char.isspace · lit ":" · star Char.isspace · lit "["
  · star (Char.none_of "]") · lit "]".

(** The same with the inside of the brackets as group 1 *)
Definition imports_inner_re : Re.t :=
  lit "imports" · star Char.isspace · lit ":" · star Char.isspace · lit "["
  · Grp 1 (star (Char.none_of "]")) · lit "]".

(** [templateUrl\s*:\s*q[^q]+q], with the same [q] *)
Definition template_url_re : Re.t :=
  lit "templateUrl" · star Char.isspace · lit ":" · star Char.isspace · Chr quote
  · plus (fun c => negb (quote c)) · Chr quote.

Definition common_import : str := py "import { CommonModule } from '@angular/common';".
Definition forms_import : str := py "import { FormsModule } from '@angular/forms';".

(** [bool(_re.search(r, s))] *)
Definition found_in (r : Re.t) (s : str) : bool :=
  match search r s with Some _ => true | None => false end.

(** The inner helper [_add_to_imports] of [generate_component]. *)
Definition _add_to_imports (m : hit) : result str :=
  inner ← operand (group 1 (caps m));
  if Str.contains (py "FormsModule") inner then mret (whole m)
  else
    let new_inner := Str.strip inner in
    let new := if Str.eqb new_inner [] then py "FormsModule"
               else Str.rstrip new_inner ++ py ", FormsModule" in
    mret (py "imports: [" ++ new ++ py "]").

(** [generate_component] from line 52 on: the response text [raw] of the
    model is turned into the component dict.  The body is cut at its
    comment lines into the parts below; the [print] of the raw response,
    whose failure the code ignores, is left out. *)

(** Lines 52 to 85: cleaning, splitting in two, trimming. *)
Definition segments (raw : str) : result (str * str) :=
  let cleaned := _clean_output raw in
  let cleaned := sub log_line_re (fun _ => []) cleaned 0 in
  let cleaned := sub aside_re (fun _ => []) cleaned 0 in
  let parts := split sep_pattern cleaned 1 in
  '(ts_part, html_part) ←
    (if Nat.eqb (length parts) 2 then unpack2 parts
     else match search tag_re cleaned with
          | Some html_split =>
              mret (take (start html_split) cleaned, drop (start html_split) cleaned)
          | None => mret (cleaned, [])
          end);
  let ts_code :=
    match search code_start_re ts_part with
    | Some ts_match => drop (start ts_match) ts_part
    | None => ts_part
    end in
  let html_code :=
    match search lt_re html_part with
    | Some html_match => drop (start html_match) html_part
    | None => html_part
    end in
  let ts_code := sub trailer_re (fun _ => []) (Str.strip ts_code) 0 in
  let html_code := sub trailer_re (fun _ => []) (Str.strip html_code) 0 in
  mret (ts_code, html_code).

(** Lines 90 to 104: an inlined template becomes the markup. *)
Definition inline_template (ts_code html_code : str) : result (str * str) :=
  match search tpl_re ts_code with
  | Some tpl_match =>
      if Str.eqb html_code [] || Str.eqb (Str.strip html_code) [] then
        extracted ← Str.strip <$> attr (group 2 (captures tpl_match));
        let ts_code := sub tpl_field_re (fun _ => []) ts_code 1 in
        let ts_code := sub commas_re (fun _ => py ",") ts_code 0 in
        let ts_code := sub comma_brace_re (group_text 1) ts_code 0 in
        let ts_code :=
          if negb (found_in template_url_start_re ts_code) then
            sub decorator_re
                (fun m => group_text 1 m ++ [NL] ++ py "  templateUrl: './app.component.html',")
                ts_code 1
          else ts_code in
        mret (ts_code, extracted)
      else mret (ts_code, html_code)
  | None => mret (ts_code, html_code)
  end.

(** Line 114 *)
Definition uses_ngmodel (ts_code html_code raw : str) : bool :=
  found_in ngmodel_re ts_code || found_in ngmodel_re html_code || found_in ngmodel_re raw.

(** Lines 118 to 123: the import of FormsModule. *)
Definition import_forms (ts_code : str) : str :=
  if negb (Str.contains (py "@angular/forms") ts_code) then
    if Str.contains common_import ts_code then
      Str.replace common_import (common_import ++ [NL] ++ forms_import) ts_code
    else forms_import ++ [NL] ++ ts_code
  else ts_code.

(** Lines 137 to 141: FormsModule in the [imports] of the component. *)
Definition list_forms (ts_code : str) : result str :=
  if found_in imports_re ts_code then
    sub_with imports_inner_re _add_to_imports ts_code 1
  else
    mret (sub decorator_re
              (fun m => group_text 1 m ++ [NL] ++ py "  imports: [CommonModule, FormsModule],")
              ts_code 1).

(** Line 149 *)
Definition canonical_template_url (ts_code : str) : str :=
  sub template_url_re (fun _ => py "templateUrl: './app.component.html'") ts_code 0.

Definition extract (raw : str) : result component :=
  '(ts_code, html_code) ← segments raw;
  '(ts_code, html_code) ← inline_template ts_code html_code;
  ts_code ←
    (if uses_ngmodel ts_code html_code raw then list_forms (import_forms ts_code)
     else mret ts_code);
  let ts_code := canonical_template_url ts_code in
  mret (Component (Str.strip ts_code) (Str.strip html_code) raw).

Section Service.
Variable reply : world -> request -> str.
Variable DESIGN_SYSTEM : design_system.

(** [prompts/generate_prompt.txt], stripped. *)
Variable SYSTEM_PROMPT : str.

(** [build_generation_prompt] *)
Definition build_generation_prompt (user_prompt : str) : str :=
  py "DESIGN SYSTEM (you must strictly follow these tokens):" ++ [NL]
  ++ tokens_dump DESIGN_SYSTEM ++ [NL] ++ [NL]
  ++ py "ALLOWED COLORS ONLY: " ++ Str.repr_list (allowed_colors DESIGN_SYSTEM) ++ [NL]
  ++ py "REQUIRED FONT: " ++ required_font DESIGN_SYSTEM ++ [NL] ++ [NL]
  ++ py "USER REQUEST: " ++ user_prompt ++ [NL] ++ [NL]
  ++ py "Generate a complete Angular standalone component now.".

(** [generate_component] *)
Definition generate_component (user_prompt : str)
    (conversation_history : option (list message)) : io component :=
  let conversation_history := default [] conversation_history in
  let messages :=
    [Message (py "system") SYSTEM_PROMPT]
    ++ conversation_history
    ++ [Message (py "user") (build_generation_prompt user_prompt)] in
  raw ← chat reply messages;
  lift (extract raw).

End Service.

End Generator.

(** ** [validator.py] *)

(** The dict that [validate_component] returns. *)
Record validation : Type := Validation {
  valid : bool;
  errors : list str;
  error_count : nat
}.

Module Validator.
Import Re.
Local Open Scope re_scope.

(** [#[0-9a-fA-F]{3,6}] *)
Definition color_re : Re.t := lit "#" · range 3 6 Char.ishex.

(** [border-radius\s*:\s*([0-9]+px|50%|9999px)], IGNORECASE *)
Definition border_radius_re : Re.t :=
  liti "border-radius" · star Char.isspace · lit ":" · star Char.isspace
  · Grp 1 (plus Char.isdigit · liti "px" ∣ lit "50%" ∣ lit "9999" · liti "px").

(** [rounded-\[\s*([0-9]+px)\s*\]] *)
Definition bracketed_re : Re.t :=
  lit "rounded-[" · star Char.isspace · Grp 1 (plus Char.isdigit · lit "px")
  · star Char.isspace · lit "]".

(** [rounded-([0-9]+px)] *)
Definition class_px_re : Re.t := lit "rounded-" · Grp 1 (plus Char.isdigit · lit "px").

Definition tailwind_map : list (str * str) :=
  [ (py "rounded-sm", py "4px");
    (py "rounded", py "8px");
    (py "rounded-md", py "12px");
    (py "rounded-lg", py "16px");
    (py "rounded-full", py "9999px");
    (py "rounded-pill", py "9999px") ].

Definition brackets : list (ascii * ascii) :=
  [ ("{", "}"); ("(", ")"); ("[", "]") ]%char.

(** The texts of the error messages. *)
Definition color_message (allowed : list str) (color : str) : str :=
  py "UNAUTHORIZED_COLOR: '" ++ color ++ py "' is not in the design system. Allowed: "
  ++ Str.repr_list allowed.

Definition font_message : str :=
  py "MISSING_FONT: Component must use 'Inter' font family".

Definition radius_message (allowed_radii : list str) : str :=
  py "UNAUTHORIZED_RADIUS: Radius used is not in the design system. Allowed: "
  ++ Str.repr_list allowed_radii.

Definition syntax_message (open_char close_char : ascii) : str :=
  py "SYNTAX_ERROR: Unbalanced '" ++ [open_char] ++ py "' and '" ++ [close_char] ++ py "'".

Definition decorator_message : str :=
  py "MISSING_DECORATOR: @Component decorator is required".

Definition class_message : str :=
  py "MISSING_CLASS: Component must export a class".

Section WithDesignSystem.
Variable DESIGN_SYSTEM : design_system.

(** [validate_component]; [errors.append] and [detected_radii +=] are
    written as the successive values of the two lists. *)
Definition validate_component (code : component) : validation :=
  let errors : list str := [] in
  let full_code := ts code ++ [NL] ++ html code in
  let found_colors := findall color_re full_code in
  let allowed := map Str.lower (allowed_colors DESIGN_SYSTEM) in
  let errors :=
    fold_left
      (fun errors color =>
         if negb (Str.mem (Str.lower color) allowed) then
           errors ++ [color_message allowed color]
         else errors)
      found_colors errors in
  let errors :=
    if negb (Str.contains (py "Inter") full_code) then
      errors ++ [font_message]
    else errors in
  let allowed_radii :=
    py_or (border_radius_values DESIGN_SYSTEM)
      (py_or (allowed_radii DESIGN_SYSTEM)
         (py_or (allowed_radii_values DESIGN_SYSTEM)
            (py_or (allowed_radii_values DESIGN_SYSTEM) []))) in
  let detected_radii : list str := [] in
  let detected_radii := detected_radii ++ findall1 border_radius_re full_code in
  let detected_radii :=
    fold_left
      (fun detected_radii '(token, px) =>
         if Str.contains token full_code then detected_radii ++ [px]
         else detected_radii)
      tailwind_map detected_radii in
  let bracketed := findall1 bracketed_re full_code in
  let detected_radii := detected_radii ++ bracketed in
  let classes_with_px := findall1 class_px_re full_code in
  let detected_radii := detected_radii ++ classes_with_px in
  let errors :=
    match detected_radii with
    | _ :: _ =>
        let found_allowed := existsb (fun r => Str.mem r allowed_radii) detected_radii in
        if negb found_allowed then
          errors ++ [radius_message allowed_radii]
        else errors
    | [] => errors
    end in
  let ts := ts code in
  let errors :=
    fold_left
      (fun errors '(open_char, close_char) =>
         if negb (Nat.eqb (Str.count [open_char] ts) (Str.count [close_char] ts)) then
           errors ++ [syntax_message open_char close_char]
         else errors)
      brackets errors in
  let errors :=
    if negb (Str.contains (py "@Component") ts) then
      errors ++ [decorator_message]
    else errors in
  let errors :=
    if negb (Str.contains (py "export class") ts) then
      errors ++ [class_message]
    else errors in
  Validation (Nat.eqb (length errors) 0) errors (length errors).

End WithDesignSystem.

End Validator.

(** ** [corrector.py] *)

Module Corrector.
Import Re.
Local Open Scope re_scope.

Definition MAX_RETRIES : nat := 2.

(** An item of the list [attempts]. *)
Record attempt_record : Type := Attempt {
  attempt : nat;
  code : component;
  validation_of : validation
}.

(** The dict that [generate_with_correction] returns. *)
Record outcome : Type := Outcome {
  final_code : component;
  final_validation : validation;
  attempts_made : nat;
  success : bool
}.

(** The variables of [generate_with_correction] that the loop updates. *)
Record locals : Type := Locals {
  result_ : component;
  validation_ : validation;
  attempts : list attempt_record
}.

(** [---\s*HTML\s*---] *)
Definition separator_re : Re.t :=
  lit "---" · star Char.isspace · lit "HTML" · star Char.isspace · lit "---".

(** Lines 52 to 72 of the loop body: the component taken from the
    response [raw] to a correction request; [previous] is [result]
    before the assignment. *)
Definition reextract (previous : component) (raw : str) : result component :=
  let cleaned := Generator._clean_output raw in
  let normalised := sub separator_re (fun _ => py "---HTML---") cleaned 0 in
  '(ts_part, html_part) ←
    (if Str.contains (py "---HTML---") normalised
     then unpack2 (Str.split1 (py "---HTML---") normalised)
     else mret (normalised, html previous));
  let ts_code :=
    match search Generator.code_start_re ts_part with
    | Some ts_match => drop (start ts_match) ts_part
    | None => ts_part
    end in
  let html_code :=
    match search Generator.lt_re html_part with
    | Some html_match => drop (start html_match) html_part
    | None => html_part
    end in
  let ts_code := sub Generator.trailer_re (fun _ => []) (Str.strip ts_code) 0 in
  let html_code := sub Generator.trailer_re (fun _ => []) (Str.strip html_code) 0 in
  mret (Component (Str.strip ts_code) (Str.strip html_code) raw).

Section Backend.
Variable reply : world -> request -> str.
Variable DESIGN_SYSTEM : design_system.

(** [prompts/generate_prompt.txt], stripped. *)
Variable SYSTEM_PROMPT : str.

(** [CORRECTION_PROMPT.format(errors=.., original_code=.., design_system=..)]
    for the text of [prompts/corrector_prompt.txt]. *)
Variable CORRECTION_PROMPT_format : str -> str -> str -> str.

(** The correction request of one pass of the loop. *)
Definition correction_request (l : locals) : request :=
  let correction_message :=
    CORRECTION_PROMPT_format
      (Str.join [NL] (map (fun e => py "- " ++ e) (errors (validation_ l))))
      (raw (result_ l))
      (tokens_dump DESIGN_SYSTEM) in
  [Message (py "system") SYSTEM_PROMPT; Message (py "user") correction_message].

(** The loop [for attempt in range(MAX_RETRIES)], over the values of
    [attempt] still to come.  The two [print]s are left out. *)
Fixpoint correct (todo : list nat) (l : locals) : io locals :=
  match todo with
  | [] => mret l
  | attempt :: todo' =>
      if valid (validation_ l) then mret l              (* break *)
      else
        raw ← chat reply (correction_request l);
        result ← lift (reextract (result_ l) raw);
        let validation := Validator.validate_component DESIGN_SYSTEM result in
        correct todo'
          (Locals result validation
                  (attempts l ++ [Attempt (attempt + 2) result validation]))
  end.

Variable generator_fn : str -> option (list message) -> io component.

(** [generate_with_correction] up to its [return]. *)
Definition run (user_prompt : str) (conversation_history : option (list message))
  : io locals :=
  let conversation_history := Some (default [] conversation_history) in
  result ← generator_fn user_prompt conversation_history;
  let validation := Validator.validate_component DESIGN_SYSTEM result in
  let attempts := [Attempt 1 result validation] in
  correct (seq 0 MAX_RETRIES) (Locals result validation attempts).

Definition returned (l : locals) : outcome :=
  Outcome (result_ l) (validation_ l) (length (attempts l)) (valid (validation_ l)).

(** [generate_with_correction] *)
Definition generate_with_correction (user_prompt : str)
    (conversation_history : option (list message)) : io outcome :=
  l ← run user_prompt conversation_history;
  mret (returned l).

End Backend.

(** What the loop does from the locals [l] in the world [w]: it adds the
    attempts [extra] and sends the requests [reqs], one for each. *)
Record loop_run (ds : design_system) (todo : list nat) (l : locals) (w : world)
    (l' : locals) (w' : world) (extra : list attempt_record) (reqs : list request) : Prop := {
  run_attempts : attempts l' = attempts l ++ extra;
  run_world : w' = w ++ reqs;
  run_calls : length reqs = length extra;
  run_bound : length extra <= length todo;
  run_numbers : map attempt extra = map (fun i => i + 2) (take (length extra) todo);
  run_last :
    (result_ l', validation_ l')
    = match last extra with
      | Some a => (code a, validation_of a)
      | None => (result_ l, validation_ l)
      end;
  run_validated :
    Forall (fun a => validation_of a = Validator.validate_component ds (code a)) extra;
  run_invalid :
    Forall (fun v => valid v = false)
           (take (length extra) (validation_ l :: map validation_of extra));
  run_stop : valid (validation_ l') = true \/ length extra = length todo
}.

End Corrector.

(** ** [main.py] *)

Module Main.

(** The body of a request to [/generate]; a missing
    [conversation_history] is the empty list. *)
Record GenerateRequest : Type := Request {
  prompt : str;
  conversation_history : list message
}.

(** The dict that [generate] returns. *)
Record body : Type := Body {
  ts_code : str;
  html_code : str;
  raw_output : str;
  is_valid : bool;
  error_list : list str;
  attempts_made : nat
}.

Section App.
Variable reply : world -> request -> str.
Variable DESIGN_SYSTEM : design_system.
Variable SYSTEM_PROMPT : str.
Variable CORRECTION_PROMPT_format : str -> str -> str -> str.

(** [generate] *)
Definition generate (req : GenerateRequest) : io body :=
  result ← Corrector.generate_with_correction reply DESIGN_SYSTEM SYSTEM_PROMPT
             CORRECTION_PROMPT_format
             (Generator.generate_component reply DESIGN_SYSTEM SYSTEM_PROMPT)
             (prompt req) (Some (conversation_history req));
  mret (Body (ts (Corrector.final_code result))
             (html (Corrector.final_code result))
             (raw (Corrector.final_code result))
             (valid (Corrector.final_validation result))
             (errors (Corrector.final_validation result))
             (Corrector.attempts_made result)).

End App.
End Main.

(** ** From one attempt to the next

    The request that the loop sends after an attempt, and the attempts
    and requests of a run linked one to the next: each request is made
    from the attempt before it, and the model's answer to it is the raw
    text of the attempt after it. *)

Module Feedback.
Import Corrector.

(** A component whose source and markup have no blank at either end. *)
Definition trimmed (c : component) : Prop :=
  Str.strip (ts c) = ts c /\ Str.strip (html c) = html c.

Section Backend.
Variable reply : world -> request -> str.
Variable DESIGN_SYSTEM : design_system.
Variable SYSTEM_PROMPT : str.
Variable CORRECTION_PROMPT_format : str -> str -> str -> str.

Definition request_after (a : attempt_record) : request :=
  [ Message (py "system") SYSTEM_PROMPT;
    Message (py "user")
      (CORRECTION_PROMPT_format
         (Str.join [NL] (map (fun e => py "- " ++ e) (errors (validation_of a))))
         (raw (code a))
         (tokens_dump DESIGN_SYSTEM)) ].

Inductive chain : world -> attempt_record -> list attempt_record -> list request -> Prop :=
| chain_end w a : chain w a [] []
| chain_step w a b rest reqs :
    valid (validation_of a) = false ->
    raw (code b) = reply w (request_after a) ->
    attempt b = S (attempt a) ->
    validation_of b = Validator.validate_component DESIGN_SYSTEM (code b) ->
    chain (w ++ [request_after a]) b rest reqs ->
    chain w a (b :: rest) (request_after a :: reqs).

End Backend.
End Feedback.

(** ** The validator's checks, one by one

    The checks of the specification of the validator, each as a function
    of the component alone; [validate_component] is compared with them
    below. *)

Module Checks.
Import Validator.

Inductive kind : Type :=
| UNAUTHORIZED_COLOR | MISSING_FONT | UNAUTHORIZED_RADIUS
| SYNTAX_ERROR | MISSING_DECORATOR | MISSING_CLASS.

Definition kinds : list (kind * str) :=
  [ (UNAUTHORIZED_COLOR, py "UNAUTHORIZED_COLOR:");
    (MISSING_FONT, py "MISSING_FONT:");
    (UNAUTHORIZED_RADIUS, py "UNAUTHORIZED_RADIUS:");
    (SYNTAX_ERROR, py "SYNTAX_ERROR:");
    (MISSING_DECORATOR, py "MISSING_DECORATOR:");
    (MISSING_CLASS, py "MISSING_CLASS:") ].

(** The kind of an error message is the name it starts with. *)
Definition kind_of (e : str) : option kind :=
  fst <$> List.find (fun '(_, name) => Str.startswith name e) kinds.

Definition is_kind (k : kind) (e : str) : bool :=
  match kind_of e, k with
  | Some UNAUTHORIZED_COLOR, UNAUTHORIZED_COLOR
  | Some MISSING_FONT, MISSING_FONT
  | Some UNAUTHORIZED_RADIUS, UNAUTHORIZED_RADIUS
  | Some SYNTAX_ERROR, SYNTAX_ERROR
  | Some MISSING_DECORATOR, MISSING_DECORATOR
  | Some MISSING_CLASS, MISSING_CLASS => true
  | _, _ => false
  end.

(** The validation reports an error of kind [k]. *)
Definition emits (k : kind) (v : validation) : Prop :=
  exists e, In e (errors v) /\ kind_of e = Some k.

(** The place of a kind in the order of the checks: a colours, b font,
    c radius, d balance, e markers. *)
Definition rank (k : kind) : nat :=
  match k with
  | UNAUTHORIZED_COLOR => 0
  | MISSING_FONT => 1
  | UNAUTHORIZED_RADIUS => 2
  | SYNTAX_ERROR => 3
  | MISSING_DECORATOR | MISSING_CLASS => 4
  end.

Definition rank_of (e : str) : nat :=
  match kind_of e with Some k => rank k | None => 5 end.

(** A list of messages whose ranks lie between [lo] and [hi] and never
    decrease. *)
Definition ranked (lo hi : nat) (l : list str) : Prop :=
  Forall (fun e => lo <= rank_of e <= hi) l /\ StronglySorted le (map rank_of l).

(** The text that the colour, font and radius checks read. *)
Definition full_code (code : component) : str := ts code ++ [NL] ++ html code.

Section WithDesignSystem.
Variable DESIGN_SYSTEM : design_system.

Definition allowed : list str := map Str.lower (allowed_colors DESIGN_SYSTEM).

Definition unauthorized (color : str) : bool := negb (Str.mem (Str.lower color) allowed).

(** a. one error for each colour literal that is not allowed *)
Definition color_check (code : component) : list str :=
  map (color_message allowed)
      (List.filter unauthorized (Re.findall color_re (full_code code))).

(** b. the font *)
Definition font_check (code : component) : list str :=
  if Str.contains (py "Inter") (full_code code) then [] else [font_message].

Definition radii : list str :=
  py_or (border_radius_values DESIGN_SYSTEM)
    (py_or (allowed_radii DESIGN_SYSTEM)
       (py_or (allowed_radii_values DESIGN_SYSTEM) [])).

(** c. the radii found by the four patterns *)
Definition declared (code : component) : list str :=
  Re.findall1 border_radius_re (full_code code).
Definition symbolic (code : component) : list str :=
  map snd (List.filter (fun '(token, _) => Str.contains token (full_code code)) tailwind_map).
Definition bracketed (code : component) : list str :=
  Re.findall1 bracketed_re (full_code code).
Definition dashed (code : component) : list str :=
  Re.findall1 class_px_re (full_code code).

Definition detected (code : component) : list str :=
  declared code ++ symbolic code ++ bracketed code ++ dashed code.

Definition radius_check (code : component) : list str :=
  match detected code with
  | [] => []
  | _ :: _ =>
      if existsb (fun r => Str.mem r radii) (detected code) then []
      else [radius_message radii]
  end.

(** d. the three pairs of brackets *)
Definition balance_check (code : component) : list str :=
  flat_map (fun '(o, c) =>
              if Nat.eqb (Str.count [o] (ts code)) (Str.count [c] (ts code)) then []
              else [syntax_message o c])
           brackets.

(** e. the two markers *)
Definition marker_check (code : component) : list str :=
  (if Str.contains (py "@Component") (ts code) then [] else [decorator_message])
  ++ (if Str.contains (py "export class") (ts code) then [] else [class_message]).

End WithDesignSystem.
End Checks.

(** ** FormsModule in a source text

    How often the import line of FormsModule occurs in a source, and how
    often FormsModule is listed in its first [imports] list. *)

Module Capability.

Definition import_count (source : str) : nat :=
  Str.count Generator.forms_import source.


End Capability.

(** ** Sample inputs *)

Module Sample.

Definition lines (l : list str) : str := Str.join [NL] l.

Definition design : design_system :=
  DesignSystem [py "#ffffff"] (py "Inter") (Some [py "8px"; py "16px"]) None None (py "{}").

(** A response with a separator and no decorator, whose markup binds
    with ngModel. *)
Definition ngmodel_response : str :=
  lines [ py "export class Box { name = 'x'; }";
          py "---HTML---";
          py "<input [(ngModel)]='name'>" ].


(** A well-formed response that needs no rewriting. *)
Definition plain_response : str :=
  lines [ py "Here is the component.";
          py "import { Component } from '@angular/core';";
          py "@Component({ selector: 'app-card', standalone: true })";
          py "export class Card { font = 'Inter'; }";
          py "---HTML---";
          py "<div class='rounded'>Inter</div>" ].

(** A response without a separator. *)
Definition source_only_response : str :=
  lines [ py "export class Card { color = '#000000'; }" ].

Definition previous : component :=
  Component (py "export class Card {}") (py "<p>old</p>") (py "old").

(** A model that answers the first request with [source_only_response]
    and every later one with [plain_response]. *)
Definition reply (w : world) (_ : request) : str :=
  match w with
  | [] => source_only_response
  | _ :: _ => plain_response
  end.

(** A model that never gives a valid component. *)
Definition stubborn (w : world) (_ : request) : str :=
  match w with
  | [] => lines [ py "export class Card { font = 'Inter'; }" ]
  | _ :: _ => source_only_response
  end.



(** A colour literal cut in two by the end of the source. *)
Definition split_color : component :=
  Component (py "color: #ab") (py "cdef;") (py "").

Definition black_text : component :=
  Component (py "color: #000000;") (py "<div>") (py "").

(** An allowed and a disallowed radius; a word that contains [rounded]. *)
Definition mixed_radii : component :=
  Component (py "border-radius: 3px;") (py "<div class='rounded'>") (py "").

Definition surrounded : component :=
  Component (py "x") (py "<div class='surrounded'>") (py "").

Definition system_prompt : str := py "You write Angular components.".

Definition correction_format (errors original_code design_system : str) : str :=
  py "Fix these errors:" ++ [NL] ++ errors ++ [NL] ++ original_code ++ [NL] ++ design_system.

Definition generator : str -> option (list message) -> io component :=
  Generator.generate_component reply design system_prompt.

Definition stubborn_generator : str -> option (list message) -> io component :=
  Generator.generate_component stubborn design system_prompt.


(** A model whose first answer is well formed. *)
Definition obedient (_ : world) (_ : request) : str := plain_response.

Definition obedient_generator : str -> option (list message) -> io component :=
  Generator.generate_component obedient design system_prompt.

(** The design system of [design] with another required font. *)
Definition roboto_design : design_system :=
  DesignSystem [py "#ffffff"] (py "Roboto") (Some [py "8px"; py "16px"]) None None (py "{}").

(** A design system without allowed radii: two keys are missing and the
    third holds the empty list. *)
Definition no_radii_design : design_system :=
  DesignSystem [py "#ffffff"] (py "Inter") None None (Some []) (py "{}").

(** A source whose braces are closed before they are opened, and the
    same characters in the usual order. *)
Definition closed_first : component :=
  Component (py "}{") (py "") (py "").

Definition opened_first : component :=
  Component (py "{}") (py "") (py "").

(** A response without separator whose markup is a paragraph. *)
Definition paragraph_response : str :=
  lines [ py "export class Card {}"; py "<p>old</p>" ].

(** A component that uses each of the four forms of a radius. *)
Definition four_patterns : component :=
  Component (py "border-radius: 3px;")
            (py "<div class='rounded-lg rounded-[12px] rounded-24px'>") (py "").

End Sample.

(** * Properties *)

(** ** Strings *)

Lemma ascii_eqb_true (a b : ascii) : Ascii.eqb a b = true <-> a = b.
Proof. apply Ascii.eqb_eq. Qed.

Lemma str_eqb_eq (a b : str) : Str.eqb a b = true <-> a = b.
Proof.
  revert b; induction a as [|x a IH]; intros [|y b]; simpl; try (split; congruence).
  rewrite andb_true_iff, Ascii.eqb_eq, IH. split; [intros [-> ->]; done | intros [= -> ->]; done].
Qed.

Lemma str_mem_In (x : str) (l : list str) : Str.mem x l = true <-> In x l.
Proof.
  unfold Str.mem. rewrite existsb_exists. split.
  - intros (y & Hy & E). apply str_eqb_eq in E. by subst.
  - intros H. exists x. split; [done | by apply str_eqb_eq].
Qed.

Lemma startswith_prefix (p s : str) :
  Str.startswith p s = true <-> exists t, s = p ++ t.
Proof.
  revert s; induction p as [|x p IH]; intros s; simpl.
  - split; [eauto | done].
  - destruct s as [|y s]; simpl.
    + split; [done | intros (t & ?); done].
    + rewrite andb_true_iff, Ascii.eqb_eq, IH. split.
      * intros (-> & t & ->). eauto.
      * intros (t & [= -> ->]). eauto.
Qed.

Lemma contains_infix (sub s : str) :
  Str.contains sub s = true <-> exists a b, s = a ++ sub ++ b.
Proof.
  induction s as [|c s IH]; simpl; rewrite orb_true_iff, startswith_prefix.
  - split.
    + intros [(t & E) | ?]; [|done]. exists [], t. done.
    + intros (a & b & E). left. destruct a; simpl in E; [eauto | done].
  - rewrite IH. split.
    + intros [(t & E) | (a & b & E)].
      * exists [], t. done.
      * exists (c :: a), b. by rewrite E.
    + intros (a & b & E). destruct a as [|x a]; simpl in E.
      * left. eauto.
      * right. injection E as -> ->. eauto.
Qed.

Lemma lstrip_suffix (s : str) : exists a, s = a ++ Str.lstrip s.
Proof.
  induction s as [|c s [a IH]]; simpl.
  - by exists [].
  - destruct (Char.isspace c).
    + exists (c :: a). by rewrite IH at 1.
    + by exists [].
Qed.

Lemma rstrip_prefix (s : str) : exists b, s = Str.rstrip s ++ b.
Proof.
  unfold Str.rstrip. destruct (lstrip_suffix (rev s)) as [a E].
  exists (rev a). rewrite <- rev_app_distr, <- E. by rewrite rev_involutive.
Qed.

Lemma strip_infix (s : str) : exists a b, s = a ++ Str.strip s ++ b.
Proof.
  unfold Str.strip. destruct (lstrip_suffix s) as [a Ea].
  destruct (rstrip_prefix (Str.lstrip s)) as [b Eb].
  exists a, b. by rewrite <- Eb.
Qed.

Lemma strip_sublist (s : str) : Str.strip s `sublist_of` s.
Proof.
  destruct (strip_infix s) as (a & b & E). rewrite E at 2.
  apply sublist_inserts_l, sublist_inserts_r. done.
Qed.

(** ** The matcher *)

Section ReFacts.
Import Re.

(** A match takes characters from the text it is tried on. *)
Lemma run_le (p : ascii -> bool) (hi : option nat) (s : str) : run p hi s <= length s.
Proof.
  revert hi; induction s as [|c s IH]; intros hi.
  - destruct hi as [[|]|]; simpl; lia.
  - destruct hi as [[|n]|]; simpl; [lia| |]; destruct (p c); simpl;
      try lia; match goal with |- S (run p ?h s) <= _ => specialize (IH h) end; lia.
Qed.

(** The hypothesis [H : In x l] for a list [l] of at most one item. *)
Ltac at_most_one H :=
  simpl in H;
  first [ destruct H as [H|[]]; [injection H as <- <-] | destruct H ].

Lemma matches_le (r : t) (prev : option ascii) (s : str) (g : groups) (n : nat) (g' : groups) :
  In (n, g') (matches r prev s g) -> n <= length s.
Proof.
  revert prev s g n g'.
  induction r as [|p|gr lo hi p|r1 IH1 r2 IH2|r1 IH1 r2 IH2|k r IH|k| | | |];
    intros prev s g n g'; simpl.
  - intros H. at_most_one H. lia.
  - destruct s as [|c s]; [intros []|]. destruct (p c); intros H; at_most_one H.
    simpl; lia.
  - intros (j & [= <- <-] & Hj)%in_map_iff.
    pose proof (run_le p hi s).
    destruct gr; [apply in_rev in Hj|]; apply in_seq in Hj; lia.
  - intros ((n1 & g1) & H1 & H2)%in_flat_map.
    apply in_map_iff in H2 as ((n2 & g2) & [= <- <-] & H2).
    apply IH1 in H1. apply IH2 in H2. rewrite length_drop in H2. lia.
  - intros [H|H]%in_app_iff; eauto.
  - intros ((n1 & g1) & [= <- <-] & H)%in_map_iff. eauto.
  - destruct (group k g) as [w|]; [|intros []].
    destruct (Str.startswith w s) eqn:E; intros H; at_most_one H.
    apply startswith_prefix in E as (u & ->).
    rewrite length_app. lia.
  - destruct prev as [c|]; [destruct (Ascii.eqb c NL)|]; intros H; at_most_one H; lia.
  - destruct s as [|c s]; [|destruct (Ascii.eqb c NL)]; intros H; at_most_one H; lia.
  - destruct s as [|c [|d s]]; [|destruct (Ascii.eqb c NL)|]; intros H; at_most_one H; lia.
  - destruct (xorb _ _); intros H; at_most_one H; lia.
Qed.

Lemma match_here_matches (r : t) (adv : bool) (prev : option ascii) (s : str)
    (n : nat) (g : groups) :
  match_here r adv prev s = Some (n, g) -> In (n, g) (matches r prev s []).
Proof. unfold match_here. intros H. by apply find_some in H as [H _]. Qed.

Lemma match_here_le (r : t) (adv : bool) (prev : option ascii) (s : str)
    (n : nat) (g : groups) :
  match_here r adv prev s = Some (n, g) -> n <= length s.
Proof. intros H%match_here_matches. by eapply matches_le. Qed.

Lemma match_here_advance (r : t) (prev : option ascii) (s : str) (n : nat) (g : groups) :
  match_here r true prev s = Some (n, g) -> 0 < n.
Proof.
  unfold match_here. intros H. apply find_some in H as [_ H]. simpl in H.
  destruct n; [done | lia].
Qed.


Lemma run_zero (p : ascii -> bool) (s : str) : run p (Some 0) s = 0.
Proof. by destruct s. Qed.

(** The matches at one position: none, one, or an empty one followed by a
    non-empty one; all inside the text. *)
Inductive hits_shape (s : str) : list (nat * groups) -> Prop :=
| hits_none : hits_shape s []
| hits_empty g : hits_shape s [(0, g)]
| hits_one n g : S n <= length s -> hits_shape s [(S n, g)]
| hits_two g n g' : S n <= length s -> hits_shape s [(0, g); (S n, g')].

Lemma hits_here_shape (r : t) (prev : option ascii) (s : str) :
  hits_shape s (hits_here r prev s).
Proof.
  unfold hits_here.
  destruct (match_here r false prev s) as [[[|n] g]|] eqn:E1; [| |constructor].
  - destruct (match_here r true prev s) as [[n' g']|] eqn:E2; [|constructor].
    pose proof (match_here_advance _ _ _ _ _ E2). pose proof (match_here_le _ _ _ _ _ _ E2).
    destruct n'; [lia|]. by constructor.
  - constructor. by eapply match_here_le.
Qed.

Lemma untouched_app (a b : list hit) : untouched (a ++ b) = untouched a ++ untouched b.
Proof. unfold untouched. apply flat_map_app. Qed.

Lemma untouched_emit (gp s : str) (hs : list (nat * groups)) :
  hits_shape s hs -> hs <> [] -> untouched (emit gp s hs) = gp ++ take (taken hs) s.
Proof.
  intros [ |g|n g Hn|g n g' Hn] Hne; [done|..]; unfold untouched; simpl;
    rewrite ?app_nil_r, ?take_0; simpl; rewrite ?app_nil_r; done.
Qed.

Lemma scan_nil (r : t) (gp : str) (prev : option ascii) :
  scan r 0 gp prev [] =
  match hits_here r prev [] with
  | [] => ([], rev gp)
  | h :: hs => (emit (rev gp) [] (h :: hs), [])
  end.
Proof. reflexivity. Qed.

Lemma scan_cons (r : t) (gp : str) (prev : option ascii) (c : ascii) (s : str) :
  scan r 0 gp prev (c :: s) =
  match hits_here r prev (c :: s) with
  | [] => scan r 0 (c :: gp) (Some c) s
  | h :: hs =>
      let '(more, tl) :=
        match taken (h :: hs) with
        | O => scan r 0 [c] (Some c) s
        | S k => scan r k [] (Some c) s
        end in
      (emit (rev gp) (c :: s) (h :: hs) ++ more, tl)
  end.
Proof. reflexivity. Qed.

Lemma scan_skip (r : t) (k : nat) (gp : str) (prev : option ascii) (c : ascii) (s : str) :
  scan r (S k) gp prev (c :: s) = scan r k gp (Some c) s.
Proof. reflexivity. Qed.

Local Opaque emit.

(** The matches of [scan] and the texts between them make up the text. *)
Lemma scan_text (r : t) (s : str) :
  forall (skip : nat) (gp : str) (prev : option ascii) (hs : list hit) (tl : str),
    skip <= length s ->
    scan r skip gp prev s = (hs, tl) ->
    rev gp ++ drop skip s = untouched hs ++ tl.
Proof.
  induction s as [|c s IH]; intros skip gp prev hs tl Hle; simpl in Hle.
  - assert (skip = 0) as -> by lia. rewrite scan_nil.
    pose proof (hits_here_shape r prev []) as Sh.
    destruct (hits_here r prev []) as [|h0 hs0] eqn:E.
    + intros [= <- <-]. by rewrite app_nil_r.
    + intros [= <- <-]. rewrite untouched_emit by done.
      by rewrite take_nil, !app_nil_r.
  - destruct skip as [|k].
    + rewrite scan_cons. pose proof (hits_here_shape r prev (c :: s)) as Sh.
      destruct (hits_here r prev (c :: s)) as [|h0 hs0] eqn:E.
      * intros H. apply IH in H; [|lia]. rewrite <- H. simpl.
        by rewrite <- app_assoc.
      * destruct (taken (h0 :: hs0)) as [|k] eqn:Et.
        -- destruct (scan r 0 [c] (Some c) s) as [more tl'] eqn:Es.
           intros [= <- <-]. apply IH in Es; [|lia].
           rewrite untouched_app, untouched_emit, Et, take_0, app_nil_r by done.
           rewrite <- app_assoc, <- Es. done.
        -- destruct (scan r k [] (Some c) s) as [more tl'] eqn:Es.
           intros [= <- <-].
           assert (S k <= length (c :: s)) as Hk.
           { inversion Sh; subst; unfold taken in Et; simpl in Et;
               try discriminate; injection Et as <-; done. }
           simpl in Hk. apply IH in Es; [|lia]. simpl in Es.
           rewrite untouched_app, untouched_emit, Et by done.
           rewrite <- !app_assoc, <- Es. f_equal.
           by rewrite <- (take_drop (S k) (c :: s)) at 1.
    + rewrite scan_skip. intros H. apply IH in H; [|lia]. done.
Qed.

Local Transparent emit.

Lemma finditer_text (r : t) (s : str) (hs : list hit) (tl : str) :
  finditer r s = (hs, tl) -> s = untouched hs ++ tl.
Proof.
  unfold finditer. intros H. apply scan_text in H; [|lia]. by rewrite <- H.
Qed.

Lemma limit_app {A} (count : nat) (l used others : list A) :
  limit count l = (used, others) -> l = used ++ others.
Proof.
  unfold limit. destruct count; intros [= <- <-]; [by rewrite app_nil_r|].
  by rewrite take_drop.
Qed.

(** A replacement that keeps part of each match keeps part of the text. *)
Lemma sub_sublist (r : t) (repl : hit -> str) (s : str) (count : nat) :
  (forall h, repl h `sublist_of` whole h) -> sub r repl s count `sublist_of` s.
Proof.
  intros Hrepl. unfold sub.
  destruct (finditer r s) as [hs tl] eqn:Ef.
  destruct (limit count hs) as [used others] eqn:El.
  rewrite (finditer_text _ _ _ _ Ef) at 1. rewrite (limit_app _ _ _ _ El), untouched_app.
  rewrite <- app_assoc. apply sublist_app; [|reflexivity].
  clear El. induction used as [|h used IH]; simpl; [constructor|].
  rewrite <- !app_assoc. apply sublist_app; [reflexivity|].
  apply sublist_app; [apply Hrepl | apply IH].
Qed.

Lemma sub_delete_sublist (r : t) (s : str) (count : nat) :
  sub r (fun _ => []) s count `sublist_of` s.
Proof. apply sub_sublist. intros h. apply sublist_nil_l. Qed.


(** [search] and the first match of [scan]. *)
Lemma hits_here_nil (r : t) (prev : option ascii) (s : str) :
  match_here r false prev s = None -> hits_here r prev s = [].
Proof. unfold hits_here. by intros ->. Qed.


Lemma search_from_nil (r : t) (prev : option ascii) :
  search_from r prev [] =
  match match_here r false prev [] with
  | Some (n, g) => Some (Found 0 (take n []) g)
  | None => None
  end.
Proof. reflexivity. Qed.

Lemma search_from_cons (r : t) (prev : option ascii) (c : ascii) (s : str) :
  search_from r prev (c :: s) =
  match match_here r false prev (c :: s) with
  | Some (n, g) => Some (Found 0 (take n (c :: s)) g)
  | None =>
      match search_from r (Some c) s with
      | Some f => Some (Found (S (start f)) (text f) (captures f))
      | None => None
      end
  end.
Proof. reflexivity. Qed.

Lemma scan_search_none (r : t) (s : str) :
  forall (prev : option ascii) (gp : str),
    search_from r prev s = None -> scan r 0 gp prev s = ([], rev gp ++ s).
Proof.
  induction s as [|c s IH]; intros prev gp.
  - rewrite search_from_nil.
    destruct (match_here r false prev []) as [[n g]|] eqn:E; [done|]. intros _.
    rewrite scan_nil, hits_here_nil by done. by rewrite app_nil_r.
  - rewrite search_from_cons.
    destruct (match_here r false prev (c :: s)) as [[n g]|] eqn:E; [done|].
    destruct (search_from r (Some c) s) eqn:Es; [done|]. intros _.
    rewrite scan_cons, hits_here_nil by done. rewrite IH by done.
    simpl. by rewrite <- app_assoc.
Qed.




(** Text in which no match can start is passed over. *)
Lemma scan_pass (r : t) (p : ascii -> bool) (pre s : str) :
  (forall prev c t, p c = false -> match_here r false prev (c :: t) = None) ->
  Forall (fun c => p c = false) pre ->
  forall (prev : option ascii) (gp : str),
    exists prev', scan r 0 gp prev (pre ++ s) = scan r 0 (rev pre ++ gp) prev' s.
Proof.
  intros Hr. induction 1 as [|c pre Hc Hpre IH]; intros prev gp.
  - simpl. eauto.
  - cbn [app]. rewrite scan_cons, hits_here_nil by auto.
    destruct (IH (Some c) (c :: gp)) as [prev' ->].
    cbn [rev]. rewrite <- app_assoc. eauto.
Qed.


(** Groups: a match keeps the groups it starts with and adds its own. *)
Lemma matches_keeps (k : nat) (r : t) :
  forall prev s g n g',
    In (n, g') (matches r prev s g) -> is_Some (group k g) -> is_Some (group k g').
Proof.
  induction r as [|p|gr lo hi p|r1 IH1 r2 IH2|r1 IH1 r2 IH2|j r IH|j| | | |];
    intros prev s g n g'; simpl.
  - intros H. by at_most_one H.
  - destruct s as [|c s]; [intros []|]. destruct (p c); intros H; by at_most_one H.
  - by intros (i & [= <- <-] & Hi)%in_map_iff.
  - intros ((n1 & g1) & H1 & H2)%in_flat_map.
    apply in_map_iff in H2 as ((n2 & g2) & [= <- <-] & H2). eauto.
  - intros [H|H]%in_app_iff; eauto.
  - intros ((n1 & g1) & [= <- <-] & H)%in_map_iff Hg. simpl.
    destruct (k =? j); [done|]. eauto.
  - destruct (group j g) as [w|]; [|intros []].
    destruct (Str.startswith w s); intros H; by at_most_one H.
  - destruct prev as [c|]; [destruct (Ascii.eqb c NL)|]; intros H; by at_most_one H.
  - destruct s as [|c s]; [|destruct (Ascii.eqb c NL)]; intros H; by at_most_one H.
  - destruct s as [|c [|d s]]; [|destruct (Ascii.eqb c NL)|]; intros H; by at_most_one H.
  - destruct (xorb _ _); intros H; by at_most_one H.
Qed.

Lemma matches_binds (k : nat) (r : t) :
  binds k r = true ->
  forall prev s g n g', In (n, g') (matches r prev s g) -> is_Some (group k g').
Proof.
  induction r as [|p|gr lo hi p|r1 IH1 r2 IH2|r1 IH1 r2 IH2|j r IH|j| | | |];
    simpl; try discriminate; intros Hb prev s g n g'.
  - intros ((n1 & g1) & H1 & H2)%in_flat_map.
    apply in_map_iff in H2 as ((n2 & g2) & [= <- <-] & H2).
    apply orb_true_iff in Hb as [Hb|Hb]; [|eauto].
    eapply matches_keeps; [exact H2|]. eauto.
  - apply andb_true_iff in Hb as [Hb1 Hb2]. intros [H|H]%in_app_iff; eauto.
  - intros ((n1 & g1) & [= <- <-] & H)%in_map_iff. simpl.
    destruct (k =? j) eqn:E; [done|]. simpl in Hb. eauto.
Qed.

Lemma search_from_binds (k : nat) (r : t) (s : str) :
  binds k r = true ->
  forall prev f, search_from r prev s = Some f -> is_Some (group k (captures f)).
Proof.
  intros Hb. induction s as [|c s IH]; intros prev f.
  - rewrite search_from_nil.
    destruct (match_here r false prev []) as [[n g]|] eqn:E; [|done].
    intros [= <-]. apply match_here_matches in E. by eapply matches_binds.
  - rewrite search_from_cons.
    destruct (match_here r false prev (c :: s)) as [[n g]|] eqn:E.
    + intros [= <-]. apply match_here_matches in E. by eapply matches_binds.
    + destruct (search_from r (Some c) s) as [f'|] eqn:Es; [|done].
      intros [= <-]. cbn [captures]. by eapply IH.
Qed.

(** What holds of the groups of every match holds of the groups of every
    match that [scan] records. *)
Lemma hits_here_all (P : groups -> Prop) (r : t) (prev : option ascii) (s : str) :
  (forall n g, In (n, g) (matches r prev s []) -> P g) ->
  Forall (fun h => P h.2) (hits_here r prev s).
Proof.
  intros H. unfold hits_here.
  destruct (match_here r false prev s) as [[[|n] g]|] eqn:E1; [| |constructor].
  - apply match_here_matches in E1. constructor; [by eapply H|].
    destruct (match_here r true prev s) as [[n' g']|] eqn:E2; [|constructor].
    apply match_here_matches in E2. constructor; [by eapply H | constructor].
  - apply match_here_matches in E1. constructor; [by eapply H | constructor].
Qed.

Lemma emit_all (P : groups -> Prop) (gp s : str) (hs : list (nat * groups)) :
  Forall (fun h => P h.2) hs -> Forall (fun h => P (caps h)) (emit gp s hs).
Proof.
  intros H. destruct H as [|[n g] hs Hh Hhs]; simpl; constructor; [done|].
  apply Forall_map. eapply Forall_impl; [exact Hhs|]. by intros [n' g'].
Qed.

Lemma scan_all (P : groups -> Prop) (r : t) :
  (forall prev s n g, In (n, g) (matches r prev s []) -> P g) ->
  forall s skip gp prev, Forall (fun h => P (caps h)) (scan r skip gp prev s).1.
Proof.
  intros H. induction s as [|c s IH]; intros skip gp prev.
  - destruct skip; [|by constructor]. rewrite scan_nil.
    pose proof (emit_all P (rev gp) [] _ (hits_here_all P r prev [] (H prev []))) as He.
    destruct (hits_here r prev []); [constructor | exact He].
  - destruct skip as [|k]; [|rewrite scan_skip; apply IH].
    rewrite scan_cons.
    pose proof (emit_all P (rev gp) (c :: s) _
                  (hits_here_all P r prev (c :: s) (H prev (c :: s)))) as He.
    destruct (hits_here r prev (c :: s)) as [|h0 hs0]; [apply IH|].
    destruct (taken (h0 :: hs0)) as [|k].
    + specialize (IH 0 [c] (Some c)). destruct (scan r 0 [c] (Some c) s).
      simpl. apply Forall_app. done.
    + specialize (IH k [] (Some c)). destruct (scan r k [] (Some c) s).
      simpl. apply Forall_app. done.
Qed.

Lemma finditer_binds (k : nat) (r : t) (s : str) :
  binds k r = true -> Forall (fun h => is_Some (group k (caps h))) (finditer r s).1.
Proof.
  intros Hb. unfold finditer.
  apply (scan_all (fun g => is_Some (group k g))).
  intros prev s' n g. by apply matches_binds.
Qed.








End ReFacts.

(** ** The texts that a pattern matches *)

Section PatternFacts.
Import Re.

Lemma run_inside (p : ascii -> bool) (s : str) :
  forall hi j, j <= run p hi s -> forallb p (take j s) = true.
Proof.
  induction s as [|c s IH]; intros hi j Hj.
  - by rewrite take_nil.
  - destruct j as [|j]; [done|]. simpl.
    destruct hi as [[|k]|]; simpl in Hj; try lia;
      destruct (p c) eqn:E; try lia; simpl;
      match type of Hj with _ <= S (run p ?h s) => apply (IH h j); lia end.
Qed.

Lemma run_bound (p : ascii -> bool) (s : str) :
  forall k, run p (Some k) s <= k.
Proof.
  induction s as [|c s IH]; intros [|k]; simpl; try lia.
  destruct (p c); [|lia]. specialize (IH k). simpl. lia.
Qed.

(** *** What a match is made of *)

Lemma matches_cat_inv (a b : t) (prev : option ascii) (s : str) (g : groups)
    (n : nat) (g' : groups) :
  In (n, g') (matches (Cat a b) prev s g) ->
  exists n1 g1 n2,
    In (n1, g1) (matches a prev s g)
    /\ In (n2, g') (matches b (prev_at prev s n1) (drop n1 s) g1)
    /\ n = n1 + n2
    /\ take n s = take n1 s ++ take n2 (drop n1 s).
Proof.
  cbn [matches]. intros ((n1 & g1) & H1 & H2)%in_flat_map.
  apply in_map_iff in H2 as ((n2 & g2) & [= <- <-] & H2).
  exists n1, g1, n2. repeat split; try done. by rewrite take_take_drop.
Qed.

Lemma matches_grp_inv (k : nat) (r : t) (prev : option ascii) (s : str) (g : groups)
    (n : nat) (g' : groups) :
  In (n, g') (matches (Grp k r) prev s g) ->
  exists g0, In (n, g0) (matches r prev s g) /\ g' = (k, take n s) :: g0.
Proof.
  cbn [matches]. intros ((n0 & g0) & [= <- <-] & H)%in_map_iff. eauto.
Qed.

Lemma matches_chr_inv (p : ascii -> bool) (prev : option ascii) (s : str) (g : groups)
    (n : nat) (g' : groups) :
  In (n, g') (matches (Chr p) prev s g) ->
  exists c s', s = c :: s' /\ p c = true /\ n = 1 /\ g' = g.
Proof.
  cbn [matches]. destruct s as [|c s]; [intros []|].
  destruct (p c) eqn:E; [|intros []]. intros [[= <- <-]|[]]. eauto 6.
Qed.

Lemma matches_rep_inv (gr : bool) (lo : nat) (hi : option nat) (p : ascii -> bool)
    (prev : option ascii) (s : str) (g : groups) (n : nat) (g' : groups) :
  In (n, g') (matches (Rep gr lo hi p) prev s g) ->
  g' = g /\ lo <= n /\ forallb p (take n s) = true.
Proof.
  cbn [matches]. intros (j & [= <- <-] & Hj)%in_map_iff.
  assert (lo <= j <= run p hi s) as Hb.
  { destruct gr; [apply in_rev in Hj|]; apply in_seq in Hj; lia. }
  split; [done|]. split; [lia|]. apply (run_inside _ _ hi). lia.
Qed.



(** *** The characters of a match

    [V q r]: the text of every match of [r] is made of characters of
    [q].  [W q r]: it is not empty and all its characters but the first
    are characters of [q]. *)

Let V (q : ascii -> bool) (r : t) : Prop :=
  forall prev s g n g', In (n, g') (matches r prev s g) -> forallb q (take n s) = true.

Let W (q : ascii -> bool) (r : t) : Prop :=
  forall prev s g n g',
    In (n, g') (matches r prev s g) ->
    exists c u, take n s = c :: u /\ forallb q u = true.

Lemma V_chr (q p : ascii -> bool) :
  (forall c, p c = true -> q c = true) -> V q (Chr p).
Proof.
  intros Hq prev s g n g' H.
  apply matches_chr_inv in H as (c & s' & -> & Hc & -> & _).
  simpl. by rewrite (Hq c Hc).
Qed.

Lemma V_rep (q : ascii -> bool) (gr : bool) (lo : nat) (hi : option nat)
    (p : ascii -> bool) :
  (forall c, p c = true -> q c = true) -> V q (Rep gr lo hi p).
Proof.
  intros Hq prev s g n g' H.
  apply matches_rep_inv in H as (_ & _ & H).
  apply forallb_forall. intros c Hc. apply Hq.
  rewrite forallb_forall in H. by apply H.
Qed.

Lemma V_cat (q : ascii -> bool) (a b : t) : V q a -> V q b -> V q (Cat a b).
Proof.
  intros Ha Hb prev s g n g' H.
  apply matches_cat_inv in H as (n1 & g1 & n2 & H1 & H2 & _ & ->).
  rewrite forallb_app. apply andb_true_iff. split; [by eapply Ha | by eapply Hb].
Qed.

Lemma V_alt (q : ascii -> bool) (a b : t) : V q a -> V q b -> V q (Alt a b).
Proof.
  intros Ha Hb prev s g n g' H. cbn [matches] in H.
  apply in_app_iff in H as [H|H]; [by eapply Ha | by eapply Hb].
Qed.

Lemma V_grp (q : ascii -> bool) (k : nat) (r : t) : V q r -> V q (Grp k r).
Proof.
  intros Hr prev s g n g' H.
  apply matches_grp_inv in H as (g0 & H & _). by eapply Hr.
Qed.

Lemma W_chr (q p : ascii -> bool) : W q (Chr p).
Proof.
  intros prev s g n g' H.
  apply matches_chr_inv in H as (c & s' & -> & _ & -> & _).
  exists c, []. done.
Qed.

Lemma W_cat (q : ascii -> bool) (a b : t) : W q a -> V q b -> W q (Cat a b).
Proof.
  intros Ha Hb prev s g n g' H.
  apply matches_cat_inv in H as (n1 & g1 & n2 & H1 & H2 & _ & ->).
  destruct (Ha _ _ _ _ _ H1) as (c & u & -> & Hu).
  exists c, (u ++ take n2 (drop n1 s)). split; [done|].
  rewrite forallb_app, Hu. by eapply Hb.
Qed.

(** *** The first way in which a pattern matches

    [Hd r x y g g']: at a text that starts with [x] followed by [y], the
    first way in which [r] matches takes [x] and turns the groups [g]
    into [g']. *)

Let Hd (r : t) (x y : str) (g g' : groups) : Prop :=
  forall prev, head (matches r prev (x ++ y) g) = Some (length x, g').

Lemma Hd_cat (a b : t) (x x' y : str) (g g1 g2 : groups) :
  Hd a x (x' ++ y) g g1 -> Hd b x' y g1 g2 -> Hd (Cat a b) (x ++ x') y g g2.
Proof.
  intros Ha Hb prev. rewrite <- app_assoc. cbn [matches].
  specialize (Ha prev).
  destruct (matches a prev (x ++ x' ++ y) g) as [|[n1 g1'] l]; [done|].
  injection Ha as -> ->. cbn [flat_map]. rewrite drop_app_length.
  specialize (Hb (prev_at prev (x ++ x' ++ y) (length x))).
  destruct (matches b _ (x' ++ y) g1) as [|[n2 g2'] l2]; [done|].
  injection Hb as -> ->. cbn. by rewrite length_app.
Qed.

Lemma Hd_chr (p : ascii -> bool) (c : ascii) (y : str) (g : groups) :
  p c = true -> Hd (Chr p) [c] y g g.
Proof. intros H prev. cbn. by rewrite H. Qed.

Lemma Hd_lit_l (L : str) : forall y g, Hd (lit_l L) L y g g.
Proof.
  induction L as [|c L IH]; intros y g; [by intros prev|].
  destruct L as [|c2 L].
  - apply Hd_chr. apply Ascii.eqb_refl.
  - change (lit_l (c :: c2 :: L)) with (Cat (Chr (Char.lit c)) (lit_l (c2 :: L))).
    change (c :: c2 :: L) with ([c] ++ c2 :: L).
    apply (Hd_cat _ _ _ _ _ g g g); [|apply IH].
    apply Hd_chr. apply Ascii.eqb_refl.
Qed.

Lemma Hd_liti_l (L : str) : forall y g, Hd (liti_l L) L y g g.
Proof.
  induction L as [|c L IH]; intros y g; [by intros prev|].
  destruct L as [|c2 L].
  - apply Hd_chr. apply Ascii.eqb_refl.
  - change (liti_l (c :: c2 :: L))
      with (Cat (Chr (Char.is_nocase c)) (liti_l (c2 :: L))).
    change (c :: c2 :: L) with ([c] ++ c2 :: L).
    apply (Hd_cat _ _ _ _ _ g g g); [|apply IH].
    apply Hd_chr. apply Ascii.eqb_refl.
Qed.

Lemma run_app (p : ascii -> bool) (x y : str) :
  forallb p x = true ->
  match y with [] => True | c :: _ => p c = false end ->
  run p None (x ++ y) = length x.
Proof.
  intros Hx Hy. induction x as [|c x IH].
  - destruct y as [|d y]; [done|]. cbn. by rewrite Hy.
  - simpl in Hx. apply andb_true_iff in Hx as [Hc Hx]. cbn. rewrite Hc.
    f_equal. exact (IH Hx).
Qed.

Lemma Hd_rep (lo : nat) (p : ascii -> bool) (x y : str) (g : groups) :
  forallb p x = true ->
  match y with [] => True | c :: _ => p c = false end ->
  lo <= length x ->
  Hd (Rep true lo None p) x y g g.
Proof.
  intros Hx Hy Hlo prev. cbn [matches]. rewrite run_app by done.
  replace (S (length x) - lo) with (S (length x - lo)) by lia.
  rewrite seq_S, rev_app_distr. cbn. f_equal. f_equal. lia.
Qed.

Lemma Hd_grp (k : nat) (r : t) (x y : str) (g g' : groups) :
  Hd r x y g g' -> Hd (Grp k r) x y g ((k, x) :: g').
Proof.
  intros H prev. cbn [matches]. specialize (H prev).
  destruct (matches r prev (x ++ y) g) as [|[n g0] l]; [done|].
  injection H as -> ->. cbn. by rewrite take_app_length.
Qed.

Lemma Hd_alt_l (a b : t) (x y : str) (g g' : groups) :
  Hd a x y g g' -> Hd (Alt a b) x y g g'.
Proof.
  intros H prev. cbn [matches]. specialize (H prev).
  by destruct (matches a prev (x ++ y) g).
Qed.

Lemma Hd_match_here (r : t) (m after : str) (g : groups) :
  Hd r m after [] g ->
  forall prev, match_here r false prev (m ++ after) = Some (length m, g).
Proof.
  intros H prev. unfold match_here. specialize (H prev).
  destruct (matches r prev (m ++ after) []) as [|[n g0] l]; [done|].
  injection H as -> ->. reflexivity.
Qed.

(** *** A match that the repeated search cannot miss

    The characters of [nf] are those at which no match of [r] starts
    with: when all the characters of a match but its first are in [nf], a
    match cannot reach over the start of a later one.  So an occurrence
    [m] of the pattern, which starts outside [nf], is found by the scan
    whatever comes before it. *)
Lemma scan_hit (r : t) (nf : ascii -> bool) (c0 : ascii) (m' after : str) (g : groups) :
  W nf r ->
  nf c0 = false ->
  (forall prev, match_here r false prev ((c0 :: m') ++ after)
                = Some (length (c0 :: m'), g)) ->
  forall before k gp prev,
    forallb nf (take k (before ++ (c0 :: m') ++ after)) = true ->
    exists gp', In (Hit gp' (c0 :: m') g) (scan r k gp prev (before ++ (c0 :: m') ++ after)).1.
Proof.
  intros Hw Hc Hm.
  assert (forall adv prev s n g0,
             match_here r adv prev s = Some (S n, g0) ->
             forallb nf (take n (drop 1 s)) = true) as Hskip.
  { intros adv prev s n g0 H%match_here_matches.
    destruct (Hw _ _ _ _ _ H) as (c & u & Ht & Hu).
    destruct s as [|d s]; [done|]. cbn [take drop] in *. rewrite drop_0.
    by injection Ht as _ ->. }
  remember ((c0 :: m') ++ after) as s eqn:Es.
  assert (s = c0 :: (m' ++ after)) as Es' by (by rewrite Es).
  induction before as [|c before IH]; intros k gp prev Hk.
  - cbn [app] in *. destruct k as [|k].
    + pose proof (Hm prev) as Hp. rewrite Es' in Hp |- *.
      rewrite scan_cons. unfold hits_here. rewrite Hp. cbn [length].
      destruct (match taken [(S (length m'), g)] with
                | 0 => scan r 0 [c0] (Some c0) (m' ++ after)
                | S k => scan r k [] (Some c0) (m' ++ after)
                end) as [more tl].
      exists (rev gp). cbn [emit fst app]. left. f_equal.
      change (c0 :: m' ++ after) with ((c0 :: m') ++ after).
      change (S (length m')) with (length (c0 :: m')). by rewrite take_app_length.
    + rewrite Es' in Hk. cbn [take forallb] in Hk. by rewrite Hc in Hk.
  - cbn [app]. destruct k as [|k].
    + rewrite scan_cons.
      pose proof (Hskip false prev (c :: before ++ s)) as S1.
      pose proof (Hskip true prev (c :: before ++ s)) as S2.
      unfold hits_here.
      destruct (match_here r false prev (c :: before ++ s)) as [[[|n] g1]|].
      * destruct (match_here r true prev (c :: before ++ s)) as [[[|n2] g2]|].
        -- cbn [taken last].
           destruct (IH 0 [c] (Some c) eq_refl) as [gp' Hin].
           destruct (scan r 0 [c] (Some c) (before ++ s)) as [more tl].
           exists gp'. cbn [fst] in *. apply in_app_iff. by right.
        -- cbn [taken last].
           specialize (S2 n2 g2 eq_refl). cbn [drop] in S2. rewrite drop_0 in S2.
           destruct (IH n2 [] (Some c) S2) as [gp' Hin].
           destruct (scan r n2 [] (Some c) (before ++ s)) as [more tl].
           exists gp'. cbn [fst] in *. apply in_app_iff. by right.
        -- cbn [taken last].
           destruct (IH 0 [c] (Some c) eq_refl) as [gp' Hin].
           destruct (scan r 0 [c] (Some c) (before ++ s)) as [more tl].
           exists gp'. cbn [fst] in *. apply in_app_iff. by right.
      * cbn [taken last].
        specialize (S1 n g1 eq_refl). cbn [drop] in S1. rewrite drop_0 in S1.
        destruct (IH n [] (Some c) S1) as [gp' Hin].
        destruct (scan r n [] (Some c) (before ++ s)) as [more tl].
        exists gp'. cbn [fst] in *. apply in_app_iff. by right.
      * apply (IH 0 (c :: gp) (Some c) eq_refl).
    + rewrite scan_skip. apply IH. cbn [app take forallb] in Hk.
      by apply andb_true_iff in Hk as [_ Hk].
Qed.

(** The value of group 1 of an occurrence is among those that
    [findall] gives. *)
Lemma findall1_hit (r : t) (nf : ascii -> bool) (c0 : ascii) (m' after : str)
    (w : str) (g : groups) :
  W nf r ->
  nf c0 = false ->
  Hd r (c0 :: m') after [] g ->
  group 1 g = Some w ->
  forall before, In w (findall1 r (before ++ (c0 :: m') ++ after)).
Proof.
  intros Hw Hc Hh Hg before. unfold findall1, finditer.
  destruct (scan_hit r nf c0 m' after g Hw Hc (Hd_match_here _ _ _ _ Hh)
              before 0 [] None eq_refl) as [gp' Hin].
  apply in_map_iff. exists (Hit gp' (c0 :: m') g). split; [|done].
  unfold group_text. cbn [caps]. by rewrite Hg.
Qed.

(** A character class inside another, checked on every character. *)
Ltac by_char :=
  let c := fresh "c" in
  let H := fresh "H" in
  intros c; destruct c as [[] [] [] [] [] [] [] []]; vm_compute; intros H;
  first [reflexivity | discriminate H].

Ltac chars_V :=
  repeat first
    [ apply V_cat | apply V_alt | apply V_grp
    | apply V_rep; by_char | apply V_chr; by_char ].

Ltac chars_W :=
  repeat first [ apply W_cat; [|chars_V] | apply W_chr ].

Lemma digit_not_space (c : ascii) : Char.isdigit c = true -> Char.isspace c = false.
Proof. revert c. by_char. Qed.

(** *** The patterns of the radius check *)

Lemma class_px_chars :
  W (fun c => negb (Ascii.eqb "r" c)) Validator.class_px_re.
Proof.
  unfold Validator.class_px_re, lit, plus.
  cbn [list_ascii_of_string lit_l]. chars_W.
Qed.

Lemma bracketed_chars :
  W (fun c => negb (Ascii.eqb "r" c)) Validator.bracketed_re.
Proof.
  unfold Validator.bracketed_re, lit, plus, star.
  cbn [list_ascii_of_string lit_l]. chars_W.
Qed.

Lemma border_radius_chars :
  W (fun c => negb (Char.is_nocase "b" c)) Validator.border_radius_re.
Proof.
  unfold Validator.border_radius_re, lit, liti, plus, star.
  cbn [list_ascii_of_string lit_l liti_l]. chars_W.
Qed.

(** [rounded-] followed by digits and [px] is a dashed pixel value. *)
Lemma class_px_detects (before d after : str) :
  d <> [] -> forallb Char.isdigit d = true ->
  In (d ++ py "px")
     (findall1 Validator.class_px_re (before ++ py "rounded-" ++ d ++ py "px" ++ after)).
Proof.
  intros Hne Hd0.
  assert (Hd Validator.class_px_re (py "rounded-" ++ (d ++ py "px")) after []
            [(1, d ++ py "px")]) as Hh.
  { unfold Validator.class_px_re.
    apply (Hd_cat _ _ _ _ _ [] [] [(1, d ++ py "px")]); [apply Hd_lit_l|].
    apply Hd_grp. apply (Hd_cat _ _ _ _ _ [] [] []); [|apply Hd_lit_l].
    apply Hd_rep; [done | reflexivity |]. destruct d; [done | simpl; lia]. }
  pose proof (findall1_hit _ _ "r" (py "ounded-" ++ (d ++ py "px")) after
                (d ++ py "px") _ class_px_chars eq_refl Hh eq_refl before) as Hin.
  cbn [app py list_ascii_of_string] in Hin |- *.
  by rewrite <- !app_assoc in Hin.
Qed.

(** [rounded-[], blanks, digits and [px], blanks and the closing bracket
    are a bracketed value. *)
Lemma bracketed_detects (before ws1 d ws2 after : str) :
  forallb Char.isspace ws1 = true -> forallb Char.isspace ws2 = true ->
  d <> [] -> forallb Char.isdigit d = true ->
  In (d ++ py "px")
     (findall1 Validator.bracketed_re
        (before ++ py "rounded-[" ++ ws1 ++ d ++ py "px" ++ ws2 ++ py "]" ++ after)).
Proof.
  intros H1 H2 Hne Hd0.
  assert (Hd Validator.bracketed_re
            ((((py "rounded-[" ++ ws1) ++ (d ++ py "px")) ++ ws2) ++ py "]") after []
            [(1, d ++ py "px")]) as Hh.
  { unfold Validator.bracketed_re.
    apply (Hd_cat _ _ _ _ _ [] [(1, d ++ py "px")] [(1, d ++ py "px")]);
      [|apply Hd_lit_l].
    apply (Hd_cat _ _ _ _ _ [] [(1, d ++ py "px")] [(1, d ++ py "px")]).
    2:{ apply Hd_rep; [done | reflexivity | lia]. }
    apply (Hd_cat _ _ _ _ _ [] [] [(1, d ++ py "px")]).
    2:{ apply Hd_grp. apply (Hd_cat _ _ _ _ _ [] [] []); [|apply Hd_lit_l].
        apply Hd_rep; [done | reflexivity |]. destruct d; [done | simpl; lia]. }
    apply (Hd_cat _ _ _ _ _ [] [] []); [apply Hd_lit_l|].
    apply Hd_rep; [done | | lia].
    destruct d as [|c d]; [done|]. simpl in Hd0. apply andb_true_iff in Hd0 as [Hc _].
    simpl. by apply digit_not_space. }
  pose proof (findall1_hit _ _ "r"
                ((((py "ounded-[" ++ ws1) ++ (d ++ py "px")) ++ ws2) ++ py "]") after
                (d ++ py "px") _ bracketed_chars eq_refl Hh eq_refl before) as Hin.
  cbn [app py list_ascii_of_string] in Hin |- *.
  by rewrite <- !app_assoc in Hin.
Qed.

(** [border-radius], blanks, a colon, blanks, digits and [px] are a
    declared value. *)
Lemma border_radius_detects (before ws1 ws2 d after : str) :
  forallb Char.isspace ws1 = true -> forallb Char.isspace ws2 = true ->
  d <> [] -> forallb Char.isdigit d = true ->
  In (d ++ py "px")
     (findall1 Validator.border_radius_re
        (before ++ py "border-radius" ++ ws1 ++ py ":" ++ ws2 ++ d ++ py "px" ++ after)).
Proof.
  intros H1 H2 Hne Hd0.
  assert (Hd Validator.border_radius_re
            ((((py "border-radius" ++ ws1) ++ py ":") ++ ws2) ++ (d ++ py "px")) after []
            [(1, d ++ py "px")]) as Hh.
  { unfold Validator.border_radius_re.
    apply (Hd_cat _ _ _ _ _ [] [] [(1, d ++ py "px")]).
    2:{ apply Hd_grp. apply Hd_alt_l. apply Hd_alt_l.
        apply (Hd_cat _ _ _ _ _ [] [] []); [|apply Hd_liti_l].
        apply Hd_rep; [done | reflexivity |]. destruct d; [done | simpl; lia]. }
    apply (Hd_cat _ _ _ _ _ [] [] []).
    2:{ apply Hd_rep; [done | | lia].
        destruct d as [|c d]; [done|]. simpl in Hd0. apply andb_true_iff in Hd0 as [Hc _].
        simpl. by apply digit_not_space. }
    apply (Hd_cat _ _ _ _ _ [] [] []); [|apply Hd_lit_l].
    apply (Hd_cat _ _ _ _ _ [] [] []); [apply Hd_liti_l|].
    apply Hd_rep; [done | reflexivity | lia]. }
  pose proof (findall1_hit _ _ "b"
                ((((py "order-radius" ++ ws1) ++ py ":") ++ ws2) ++ (d ++ py "px")) after
                (d ++ py "px") _ border_radius_chars eq_refl Hh eq_refl before) as Hin.
  cbn [app py list_ascii_of_string] in Hin |- *.
  by rewrite <- !app_assoc in Hin.
Qed.

(** *** The pattern of the imports list *)


End PatternFacts.

(** ** The validator *)

Section ValidatorFacts.
Import Validator Checks.
Variable ds : design_system.

Lemma fold_append_filter {A B} (f : B -> bool) (g : B -> A) (l : list B) (acc : list A) :
  fold_left (fun acc x => if f x then acc ++ [g x] else acc) l acc
  = acc ++ map g (List.filter f l).
Proof.
  revert acc; induction l as [|x l IH]; intros acc; simpl.
  - by rewrite app_nil_r.
  - rewrite IH. destruct (f x); simpl; [|done].
    by rewrite <- app_assoc.
Qed.

Lemma py_or_idem (a : option (list str)) (b : list str) :
  py_or a (py_or a b) = py_or a b.
Proof. by destruct a as [[|]|]. Qed.

(** The list of errors is the checks' lists, one after the other. *)
Lemma errors_by_check (code : component) :
  errors (validate_component ds code)
  = color_check ds code ++ font_check code ++ radius_check ds code
    ++ balance_check code ++ marker_check code.
Proof.
  unfold validate_component. cbn [errors].
  rewrite (fold_append_filter (fun color => negb (Str.mem (Str.lower color) _))
             (color_message _)).
  rewrite py_or_idem.
  fold (full_code code) (allowed ds) (radii ds).
  change (fun color => negb (Str.mem (Str.lower color) (allowed ds))) with (unauthorized ds).
  fold (color_check ds code).
  match goal with
  | |- context [match ?d with [] => _ | _ :: _ => _ end] =>
      assert (d = detected code) as ->
  end.
  { unfold detected, declared, symbolic, bracketed, dashed, tailwind_map.
    cbn [fold_left List.filter map snd app].
    repeat match goal with
           | |- context [Str.contains ?a ?b] => destruct (Str.contains a b)
           end; cbn [map snd app]; rewrite <- ?app_assoc; reflexivity. }
  unfold font_check, radius_check, balance_check, marker_check, brackets.
  cbn [fold_left flat_map app].
  destruct (detected code) eqn:Ed; [| destruct (existsb _ _)];
    repeat match goal with
           | |- context [Str.contains ?a ?b] => destruct (Str.contains a b)
           | |- context [Nat.eqb ?a ?b] => destruct (Nat.eqb a b)
           end; cbn [negb app]; rewrite <- ?app_assoc, ?app_nil_r; cbn [app]; reflexivity.
Qed.

(** Every message of a check carries the name of its kind. *)
Lemma color_check_kind (code : component) :
  Forall (fun e => kind_of e = Some UNAUTHORIZED_COLOR) (color_check ds code).
Proof. unfold color_check. apply Forall_map, Forall_forall. intros; reflexivity. Qed.

Lemma font_check_kind (code : component) :
  Forall (fun e => kind_of e = Some MISSING_FONT) (font_check code).
Proof. unfold font_check. destruct (Str.contains _ _); repeat constructor. Qed.

Lemma radius_check_kind (code : component) :
  Forall (fun e => kind_of e = Some UNAUTHORIZED_RADIUS) (radius_check ds code).
Proof.
  unfold radius_check. destruct (detected code); [constructor|].
  destruct (existsb _ _); repeat constructor.
Qed.

Lemma balance_check_kind (code : component) :
  Forall (fun e => kind_of e = Some SYNTAX_ERROR) (balance_check code).
Proof.
  unfold balance_check, brackets. cbn [flat_map].
  repeat match goal with
         | |- context [Nat.eqb ?a ?b] => destruct (Nat.eqb a b)
         end; repeat constructor.
Qed.

Lemma marker_check_kind (code : component) :
  Forall (fun e => kind_of e = Some MISSING_DECORATOR \/ kind_of e = Some MISSING_CLASS)
         (marker_check code).
Proof.
  unfold marker_check.
  repeat match goal with
         | |- context [Str.contains ?a ?b] => destruct (Str.contains a b)
         end;
    repeat match goal with |- Forall _ _ => constructor end;
    (by left) || (by right).
Qed.

Lemma ranked_const (n : nat) (l : list str) :
  Forall (fun e => rank_of e = n) l -> ranked n n l.
Proof.
  intros H. split.
  - eapply Forall_impl; [exact H|]. simpl; lia.
  - induction H as [|e l He Hl IH]; simpl; constructor; [done|].
    apply Forall_map. eapply Forall_impl; [exact Hl|]. simpl; lia.
Qed.

Lemma ranked_app (a b c d : nat) (l1 l2 : list str) :
  ranked a b l1 -> ranked c d l2 -> a <= c -> b <= c -> b <= d -> ranked a d (l1 ++ l2).
Proof.
  intros [F1 S1] [F2 S2] ? ? ?. split.
  - apply Forall_app. split; (eapply Forall_impl; [eassumption|]); simpl; lia.
  - rewrite map_app. apply StronglySorted_app_2; [|done..].
    intros x1 x2 (e1 & -> & In1)%list_elem_of_fmap (e2 & -> & In2)%list_elem_of_fmap.
    rewrite Forall_forall in F1, F2.
    specialize (F1 e1 In1). specialize (F2 e2 In2). simpl in *. lia.
Qed.

Lemma kind_rank (k : kind) (l : list str) :
  Forall (fun e => kind_of e = Some k) l -> Forall (fun e => rank_of e = rank k) l.
Proof.
  intros H. eapply Forall_impl; [exact H|].
  intros e He. unfold rank_of. by rewrite He.
Qed.

Lemma errors_ranked (code : component) :
  ranked 0 4 (errors (validate_component ds code)).
Proof.
  rewrite errors_by_check.
  apply (ranked_app 0 0 1 4); [| |lia..].
  { apply ranked_const, (kind_rank UNAUTHORIZED_COLOR), color_check_kind. }
  apply (ranked_app 1 1 2 4); [| |lia..].
  { apply ranked_const, (kind_rank MISSING_FONT), font_check_kind. }
  apply (ranked_app 2 2 3 4); [| |lia..].
  { apply ranked_const, (kind_rank UNAUTHORIZED_RADIUS), radius_check_kind. }
  apply (ranked_app 3 3 4 4); [| |lia..].
  { apply ranked_const, (kind_rank SYNTAX_ERROR), balance_check_kind. }
  apply ranked_const. eapply Forall_impl; [apply marker_check_kind|].
  intros e [H|H]; unfold rank_of; by rewrite H.
Qed.

(** C5.  For every component and design system, the result of
    [validate_component] has [valid] equal to [error_count == 0] and
    [error_count] equal to the length of [errors]; the errors are the
    errors of the colour, font, radius, balance and marker checks, each
    computed from the component whatever the other checks find, in that
    order: the ranks of the messages, a to e, never decrease along the
    list. *)
Theorem validate_component_runs_all_checks (code : component) :
  let v := validate_component ds code in
  valid v = Nat.eqb (error_count v) 0
  /\ error_count v = length (errors v)
  /\ errors v = color_check ds code ++ font_check code ++ radius_check ds code
                ++ balance_check code ++ marker_check code
  /\ Forall (fun e => exists k, kind_of e = Some k) (errors v)
  /\ StronglySorted le (map rank_of (errors v)).
Proof.
  cbv zeta. split; [reflexivity|]. split; [reflexivity|].
  split; [apply errors_by_check|].
  destruct (errors_ranked code) as [F S]. split; [|exact S].
  eapply Forall_impl; [exact F|]. intros e. unfold rank_of.
  destruct (kind_of e); [eauto | simpl; lia].
Qed.


(** The errors of one kind are the errors of the check of that kind. *)
Lemma emits_radius (code : component) :
  emits UNAUTHORIZED_RADIUS (validate_component ds code) <-> radius_check ds code <> [].
Proof.
  unfold emits. rewrite errors_by_check. split.
  - intros (e & Hin & Hk).
    pose proof (color_check_kind code) as F1. pose proof (font_check_kind code) as F2.
    pose proof (balance_check_kind code) as F4. pose proof (marker_check_kind code) as F5.
    rewrite Forall_forall in F1, F2, F4, F5.
    rewrite !in_app_iff, <- !list_elem_of_In in Hin.
    destruct Hin as [H|[H|[H|[H|H]]]].
    + apply F1 in H. congruence.
    + apply F2 in H. congruence.
    + intros E. rewrite E in H. by apply elem_of_nil in H.
    + apply F4 in H. congruence.
    + apply F5 in H. destruct H; congruence.
  - intros Hne. pose proof (radius_check_kind code) as F3.
    destruct (radius_check ds code) as [|e l]; [done|].
    exists e. split.
    + rewrite !in_app_iff. right; right; left. by left.
    + by inversion F3.
Qed.

Lemma radius_check_fires (code : component) :
  radius_check ds code <> []
  <-> detected code <> [] /\ Forall (fun r => ~ In r (radii ds)) (detected code).
Proof.
  unfold radius_check. destruct (detected code) as [|r l] eqn:E.
  - split; [done | intros [? _]; done].
  - destruct (existsb _ _) eqn:Ex.
    + split; [done|]. intros [_ F]. exfalso.
      apply existsb_exists in Ex as (x & Hx & Hm). apply str_mem_In in Hm.
      rewrite Forall_forall in F. apply (F x); [by apply list_elem_of_In | done].
    + split; [|done]. intros _. split; [done|].
      apply Forall_forall. intros x Hx%list_elem_of_In Hm.
      assert (existsb (fun r => Str.mem r (radii ds)) (r :: l) = true) as Hc.
      { apply existsb_exists. exists x. split; [done | by apply str_mem_In]. }
      congruence.
Qed.

Lemma is_kind_iff (k : kind) (e : str) : is_kind k e = true <-> kind_of e = Some k.
Proof.
  unfold is_kind. destruct (kind_of e) as [[]|]; destruct k; split; congruence.
Qed.

Lemma filter_kind_all (k : kind) (l : list str) :
  Forall (fun e => kind_of e = Some k) l -> List.filter (is_kind k) l = l.
Proof.
  induction 1 as [|e l He Hl IH]; simpl; [done|].
  apply is_kind_iff in He. by rewrite He, IH.
Qed.

Lemma filter_kind_none (k : kind) (l : list str) :
  Forall (fun e => kind_of e <> Some k) l -> List.filter (is_kind k) l = [].
Proof.
  induction 1 as [|e l He Hl IH]; simpl; [done|].
  destruct (is_kind k e) eqn:E; [|done]. by apply is_kind_iff in E.
Qed.

Lemma color_errors (code : component) :
  List.filter (is_kind UNAUTHORIZED_COLOR) (errors (validate_component ds code))
  = color_check ds code.
Proof.
  rewrite errors_by_check, !List.filter_app.
  rewrite (filter_kind_all _ _ (color_check_kind code)).
  rewrite (filter_kind_none _ (font_check code)),
          (filter_kind_none _ (radius_check ds code)),
          (filter_kind_none _ (balance_check code)),
          (filter_kind_none _ (marker_check code)).
  - by rewrite !app_nil_r.
  - eapply Forall_impl; [apply marker_check_kind|]. intros e [H|H]; congruence.
  - eapply Forall_impl; [apply balance_check_kind|]. intros e H; congruence.
  - eapply Forall_impl; [apply radius_check_kind|]. intros e H; congruence.
  - eapply Forall_impl; [apply font_check_kind|]. intros e H; congruence.
Qed.

(** A colour literal starts with [#]. *)
Lemma color_needs_hash (prev : option ascii) (c : ascii) (t : str) :
  Char.lit "#" c = false -> Re.match_here color_re false prev (c :: t) = None.
Proof.
  intros H. unfold Re.match_here, color_re.
  cbn [Re.matches Re.lit Re.lit_l list_ascii_of_string flat_map].
  by rewrite H.
Qed.

Lemma color_at_end (prev : option ascii) : Re.hits_here color_re prev [] = [].
Proof. reflexivity. Qed.

Lemma findall_no_hash (gp s : str) (prev : option ascii) :
  ~ In "#"%char s -> Re.scan color_re 0 gp prev s = ([], rev gp ++ s).
Proof.
  intros Hs.
  destruct (scan_pass color_re (Char.lit "#") s [] color_needs_hash) with (prev := prev) (gp := gp)
    as [prev' E].
  { apply Forall_forall. intros c Hc%list_elem_of_In.
    destruct (Char.lit "#" c) eqn:E; [|done].
    apply Ascii.eqb_eq in E. by subst. }
  rewrite app_nil_r in E. rewrite E, scan_nil, color_at_end.
  by rewrite rev_app_distr, rev_involutive.
Qed.

(** A text whose only [#] starts a literal of six hexadecimal digits has
    that literal as its only colour. *)
Lemma findall_one_color (before after h : str) :
  ~ In "#"%char before -> ~ In "#"%char after ->
  length h = 6 -> forallb Char.ishex h = true ->
  Re.findall color_re (before ++ "#"%char :: h ++ after) = ["#"%char :: h].
Proof.
  intros Hb Ha Hl Hh.
  destruct h as [|h1 [|h2 [|h3 [|h4 [|h5 [|h6 [|]]]]]]]; try discriminate.
  simpl in Hh. rewrite !andb_true_iff in Hh.
  destruct Hh as (H1 & H2 & H3 & H4 & H5 & H6 & _).
  unfold Re.findall, Re.finditer.
  destruct (scan_pass color_re (Char.lit "#") before
              ("#"%char :: [h1; h2; h3; h4; h5; h6] ++ after) color_needs_hash)
    with (prev := @None ascii) (gp := @nil ascii) as [prev' E].
  { apply Forall_forall. intros c Hc%list_elem_of_In.
    destruct (Char.lit "#" c) eqn:E; [|done].
    apply Ascii.eqb_eq in E. by subst. }
  rewrite E. rewrite scan_cons.
  assert (Re.hits_here color_re prev' ("#"%char :: [h1; h2; h3; h4; h5; h6] ++ after)
          = [(7, [])]) as ->.
  { unfold Re.hits_here, Re.match_here, color_re. simpl.
    rewrite H1, H2, H3, H4, H5, H6. cbn [fmap option_fmap option_map pred].
    rewrite run_zero. reflexivity. }
  cbn [Re.taken last]. cbn [app]. rewrite !scan_skip.
  rewrite findall_no_hash by done. reflexivity.
Qed.

(** C6.  The UNAUTHORIZED_COLOR errors are, in order, one for each
    occurrence of a colour literal [#] followed by three to six
    hexadecimal digits in the text made of the source, a newline and the
    markup, whose lower-case form is not among the lower-cased allowed
    colours; the message names the literal.  In particular, with [#ffffff]
    as the only allowed colour, a text whose only colour literal is
    [#000000] gives exactly one such error, naming [#000000], and a text
    whose only colour literal is [#ffffff] gives none. *)
Theorem color_error_per_unauthorized_literal (code : component) :
  let v := validate_component ds code in
  let colors := List.filter (is_kind UNAUTHORIZED_COLOR) (errors v) in
  colors
  = map (fun color =>
           py "UNAUTHORIZED_COLOR: '" ++ color
           ++ py "' is not in the design system. Allowed: "
           ++ Str.repr_list (map Str.lower (allowed_colors ds)))
        (List.filter
           (fun color => negb (Str.mem (Str.lower color) (map Str.lower (allowed_colors ds))))
           (Re.findall color_re (ts code ++ [NL] ++ html code)))
  /\ (forall before after,
        ts code ++ [NL] ++ html code = before ++ py "#000000" ++ after ->
        ~ In "#"%char before -> ~ In "#"%char after ->
        allowed_colors ds = [py "#ffffff"] ->
        colors = [py "UNAUTHORIZED_COLOR: '#000000' is not in the design system. Allowed: ['#ffffff']"])
  /\ (forall before after,
        ts code ++ [NL] ++ html code = before ++ py "#ffffff" ++ after ->
        ~ In "#"%char before -> ~ In "#"%char after ->
        allowed_colors ds = [py "#ffffff"] ->
        colors = []).
Proof.
  cbv zeta. rewrite color_errors. unfold color_check, unauthorized, allowed, full_code.
  split; [reflexivity|]. split.
  - intros before after E Hb Ha Hc. rewrite E, Hc.
    change (py "#000000" ++ after) with ("#"%char :: py "000000" ++ after).
    rewrite (findall_one_color before after (py "000000")) by done. reflexivity.
  - intros before after E Hb Ha Hc. rewrite E, Hc.
    change (py "#ffffff" ++ after) with ("#"%char :: py "ffffff" ++ after).
    rewrite (findall_one_color before after (py "ffffff")) by done. reflexivity.
Qed.

(** C7.  The radii that the radius check detects are those of the four
    patterns, and each pattern detects what it is written for, wherever
    it stands in the text that the check reads: a [border-radius]
    declaration with digits and [px] gives that value; a symbolic token
    of the Tailwind table that occurs in the text gives its value of
    the table; [rounded-[] with digits and [px] between the brackets
    gives that value; [rounded-] followed by digits and [px] gives that
    value.  An UNAUTHORIZED_RADIUS error is reported if and only if some
    radius is detected and no detected radius is an allowed one; so a
    component with an allowed and a disallowed radius passes the check,
    and so does a component with no radius at all. *)
Theorem radius_error_iff_none_allowed (code : component) :
  let v := validate_component ds code in
  detected code = declared code ++ symbolic code ++ bracketed code ++ dashed code
  /\ (forall before ws1 ws2 d after,
        forallb Char.isspace ws1 = true -> forallb Char.isspace ws2 = true ->
        d <> [] -> forallb Char.isdigit d = true ->
        full_code code
        = before ++ py "border-radius" ++ ws1 ++ py ":" ++ ws2 ++ d ++ py "px" ++ after ->
        In (d ++ py "px") (declared code))
  /\ (forall token px,
        In (token, px) tailwind_map ->
        Str.contains token (full_code code) = true ->
        In px (symbolic code))
  /\ (forall before ws1 d ws2 after,
        forallb Char.isspace ws1 = true -> forallb Char.isspace ws2 = true ->
        d <> [] -> forallb Char.isdigit d = true ->
        full_code code
        = before ++ py "rounded-[" ++ ws1 ++ d ++ py "px" ++ ws2 ++ py "]" ++ after ->
        In (d ++ py "px") (bracketed code))
  /\ (forall before d after,
        d <> [] -> forallb Char.isdigit d = true ->
        full_code code = before ++ py "rounded-" ++ d ++ py "px" ++ after ->
        In (d ++ py "px") (dashed code))
  /\ (emits UNAUTHORIZED_RADIUS v
      <-> detected code <> [] /\ Forall (fun r => ~ In r (radii ds)) (detected code))
  /\ ((exists r, In r (detected code) /\ In r (radii ds)) -> ~ emits UNAUTHORIZED_RADIUS v)
  /\ (detected code = [] -> ~ emits UNAUTHORIZED_RADIUS v).
Proof.
  cbv zeta. split; [reflexivity|].
  split.
  { intros before ws1 ws2 d after H1 H2 Hne Hd0 E. unfold declared. rewrite E.
    by apply border_radius_detects. }
  split.
  { intros token px Hin Hc. unfold symbolic. apply in_map_iff.
    exists (token, px). split; [done|]. apply filter_In. by split. }
  split.
  { intros before ws1 d ws2 after H1 H2 Hne Hd0 E. unfold bracketed. rewrite E.
    by apply bracketed_detects. }
  split.
  { intros before d after Hne Hd0 E. unfold dashed. rewrite E.
    by apply class_px_detects. }
  assert (emits UNAUTHORIZED_RADIUS (validate_component ds code)
          <-> detected code <> [] /\ Forall (fun r => ~ In r (radii ds)) (detected code)) as Hiff.
  { rewrite emits_radius. apply radius_check_fires. }
  split; [exact Hiff|]. split.
  - intros (r & Hd0 & Ha) [_ F]%Hiff. rewrite Forall_forall in F.
    apply (F r); [by apply list_elem_of_In | done].
  - intros E [Hne _]%Hiff. done.
Qed.

(** C10.  The symbolic token [rounded] is looked for as a substring and
    stands for [8px]: whenever the text read by the check contains
    [rounded] anywhere, [8px] is among the detected radii, and when [8px]
    is an allowed radius no UNAUTHORIZED_RADIUS error is reported. *)
Theorem rounded_substring_detects_8px (code : component) (before after : str) :
  full_code code = before ++ py "rounded" ++ after ->
  In (py "8px") (detected code)
  /\ (In (py "8px") (radii ds) ->
      ~ emits UNAUTHORIZED_RADIUS (validate_component ds code)).
Proof.
  intros E.
  assert (In (py "8px") (detected code)) as Hd.
  { unfold detected. rewrite !in_app_iff. right; left.
    unfold symbolic. apply in_map_iff. exists (py "rounded", py "8px"). split; [done|].
    apply filter_In. split.
    - unfold tailwind_map. right; left. done.
    - apply contains_infix. eauto. }
  split; [exact Hd|]. intros Ha.
  rewrite emits_radius, radius_check_fires. intros [_ F].
  rewrite Forall_forall in F. apply (F (py "8px")); [by apply list_elem_of_In | done].
Qed.

End ValidatorFacts.

(** ** The extractor never raises *)

Section Totality.
Import Re Generator.

Lemma unpack2_two {A} (l : list A) : length l = 2 -> exists a b, l = [a; b] /\ unpack2 l = Ok (a, b).
Proof. destruct l as [|a [|b [|]]]; try discriminate. eauto. Qed.

Lemma traverse_ok {A B} (f : A -> result B) (l : list A) :
  Forall (fun a => exists b, f a = Ok b) l -> exists bs, traverse f l = Ok bs.
Proof.
  induction 1 as [|a l [b Hb] Hl [bs IH]]; simpl; [eauto|].
  rewrite Hb, IH. eauto.
Qed.

Lemma segments_total (raw : str) : exists ts_code html_code, segments raw = Ok (ts_code, html_code).
Proof.
  unfold segments.
  set (cleaned := sub aside_re _ _ 0).
  destruct (length (split sep_pattern cleaned 1) =? 2) eqn:E.
  - apply Nat.eqb_eq, unpack2_two in E as (a & b & _ & ->). simpl. eauto.
  - destruct (search tag_re cleaned); simpl; eauto.
Qed.

Lemma inline_template_total (ts_code html_code : str) :
  exists ts_code' html_code', inline_template ts_code html_code = Ok (ts_code', html_code').
Proof.
  unfold inline_template.
  destruct (search tpl_re ts_code) as [f|] eqn:E; [|simpl; eauto].
  destruct (Str.eqb html_code [] || Str.eqb (Str.strip html_code) []); [|simpl; eauto].
  destruct (search_from_binds 2 tpl_re ts_code eq_refl None f E) as [w ->].
  simpl. eauto.
Qed.

Lemma add_to_imports_total (h : hit) :
  is_Some (group 1 (caps h)) -> exists w, _add_to_imports h = Ok w.
Proof.
  intros [inner E]. unfold _add_to_imports. rewrite E. simpl.
  destruct (Str.contains _ inner); simpl; eauto.
Qed.

Lemma list_forms_total (ts_code : str) : exists ts_code', list_forms ts_code = Ok ts_code'.
Proof.
  unfold list_forms. destruct (found_in imports_re ts_code); [|simpl; eauto].
  unfold sub_with.
  pose proof (finditer_binds 1 imports_inner_re ts_code eq_refl) as F.
  destruct (finditer imports_inner_re ts_code) as [hs tl]. simpl in F.
  destruct (limit 1 hs) as [used others] eqn:El.
  assert (Forall (fun h => is_Some (group 1 (caps h))) used) as Fu.
  { injection El as <- <-. by apply Forall_take. }
  destruct (traverse_ok (fun h => match _add_to_imports h with
                                  | Ok w => Ok (gap h ++ w)
                                  | Raise e => Raise e
                                  end) used) as [pieces ->]; [|eauto].
  eapply Forall_impl; [exact Fu|]. intros h Hh.
  destruct (add_to_imports_total h Hh) as [w ->]. eauto.
Qed.

Lemma extract_total (raw_text : str) :
  exists c, extract raw_text = Ok c /\ raw c = raw_text.
Proof.
  unfold extract.
  destruct (segments_total raw_text) as (t1 & h1 & ->). simpl.
  destruct (inline_template_total t1 h1) as (t2 & h2 & ->). simpl.
  destruct (uses_ngmodel t2 h2 raw_text).
  - destruct (list_forms_total (import_forms t2)) as (t3 & ->). simpl. eauto.
  - simpl. eauto.
Qed.

Lemma cut_contains (sep s : str) :
  Str.contains sep s = true -> exists a b, Str.cut sep s = Some (a, b).
Proof.
  induction s as [|c s IH]; simpl.
  - destruct (Str.startswith sep []); [eauto | done].
  - destruct (Str.startswith sep (c :: s)); [eauto|]. simpl.
    intros (a & b & ->)%IH. eauto.
Qed.

Lemma reextract_total (previous : component) (raw_text : str) :
  exists c, Corrector.reextract previous raw_text = Ok c /\ raw c = raw_text.
Proof.
  unfold Corrector.reextract.
  set (normalised := sub Corrector.separator_re _ _ 0).
  destruct (Str.contains (py "---HTML---") normalised) eqn:E.
  - destruct (cut_contains _ _ E) as (a & b & Hc).
    unfold Str.split1. rewrite Hc. simpl. eauto.
  - simpl. eauto.
Qed.

(** C9.  For every response text the extractor returns a component and
    raises nothing: the tuple assignment of the split is guarded by the
    length test, the template group of a template match always has a text,
    and so has the group that [_add_to_imports] reads; a missing marker
    only changes which branch is taken.  The same holds of the
    orchestrator's own extraction of a correction response, and of
    [generate_component] once the model has answered.  The raw text is
    kept as it is. *)
Theorem extraction_never_raises :
  (forall raw_text, exists c, extract raw_text = Ok c /\ raw c = raw_text)
  /\ (forall previous raw_text,
        exists c, Corrector.reextract previous raw_text = Ok c /\ raw c = raw_text)
  /\ (forall reply ds system_prompt user_prompt history w,
        exists c w',
          generate_component reply ds system_prompt user_prompt history w = Ok (c, w')).
Proof.
  split; [exact extract_total|]. split; [exact reextract_total|].
  intros reply ds sp up h w. unfold generate_component, chat.
  unfold mbind, io_bind.
  destruct (extract_total (reply w ([Message (py "system") sp] ++ default [] h
              ++ [Message (py "user") (build_generation_prompt ds up)]))) as (c & Hc & _).
  unfold lift. rewrite Hc. eauto.
Qed.

End Totality.

(** ** The correction loop *)

Section OrchestratorFacts.
Import Corrector.
Variable reply : world -> request -> str.
Variable ds : design_system.
Variable system_prompt : str.
Variable correction_format : str -> str -> str -> str.

Let correct := Corrector.correct reply ds system_prompt correction_format.
Let run := Corrector.run reply ds system_prompt correction_format.
Let generate_with_correction :=
  Corrector.generate_with_correction reply ds system_prompt correction_format.

Lemma correct_runs (todo : list nat) :
  forall l w, exists l' w' extra reqs,
    correct todo l w = Ok (l', w') /\ loop_run ds todo l w l' w' extra reqs.
Proof.
  induction todo as [|i todo IH]; intros l w.
  - exists l, w, [], []. split; [reflexivity|].
    constructor; simpl; rewrite ?app_nil_r; auto.
  - unfold correct. cbn [Corrector.correct]. fold correct.
    destruct (valid (validation_ l)) eqn:Ev.
    + exists l, w, [], []. split; [reflexivity|].
      constructor; simpl; rewrite ?app_nil_r; auto. lia.
    + unfold mbind, io_bind, chat.
      set (rq := correction_request ds system_prompt correction_format l).
      destruct (reextract_total (result_ l) (reply w rq)) as (c & Hc & _).
      unfold lift at 1. rewrite Hc.
      set (v := Validator.validate_component ds c).
      set (l1 := Locals c v (attempts l ++ [Attempt (i + 2) c v])).
      destruct (IH l1 (w ++ [rq])) as (l' & w' & extra & reqs & Hrun & R).
      exists l', w', (Attempt (i + 2) c v :: extra), (rq :: reqs).
      split; [exact Hrun|]. destruct R. constructor; cbn [length]; try lia.
      * rewrite run_attempts0. subst l1. cbn [attempts]. by rewrite <- app_assoc.
      * rewrite run_world0. by rewrite <- app_assoc.
      * cbn [map take attempt]. by rewrite run_numbers0.
      * rewrite run_last0, last_cons. subst l1. cbn [result_ validation_].
        by destruct (last extra).
      * constructor; [done|]. done.
      * cbn [take map validation_of]. constructor; [done|]. done.
      * destruct run_stop0; [by left | right; lia].
Qed.


Lemma retry_numbers (n : nat) :
  n <= MAX_RETRIES -> map (fun i => i + 2) (take n (seq 0 MAX_RETRIES)) = seq 2 n.
Proof.
  unfold MAX_RETRIES. intros H.
  destruct n as [|[|[|n]]]; [reflexivity..|lia].
Qed.

Variable generator_fn : str -> option (list message) -> io component.

(** The whole call, once the generator has returned [c] in the world
    [w1]. *)
Lemma run_spec (user_prompt : str) (history : option (list message))
    (w0 w1 : world) (c : component) :
  generator_fn user_prompt (Some (default [] history)) w0 = Ok (c, w1) ->
  let v := Validator.validate_component ds c in
  let first := Locals c v [Attempt 1 c v] in
  exists l w' extra reqs,
    run generator_fn user_prompt history w0 = Ok (l, w')
    /\ generate_with_correction generator_fn user_prompt history w0 = Ok (returned l, w')
    /\ loop_run ds (seq 0 MAX_RETRIES) first w1 l w' extra reqs.
Proof.
  intros Hg v first.
  destruct (correct_runs (seq 0 MAX_RETRIES) first w1) as (l & w' & extra & reqs & Hc & R).
  exists l, w', extra, reqs.
  assert (run generator_fn user_prompt history w0 = Ok (l, w')) as Hr.
  { unfold run, Corrector.run, mbind, io_bind. rewrite Hg. exact Hc. }
  split; [exact Hr|]. split; [|exact R].
  unfold generate_with_correction, Corrector.generate_with_correction, mbind, io_bind.
  fold run. rewrite Hr. reflexivity.
Qed.

(** C3.  Once the generator has returned, the loop runs to its end and
    [generate_with_correction] returns what it has gathered: [l] below is
    the state of the loop's variables at the [return], [reqs] the
    correction requests sent after the generator's call.  The count of
    attempts returned is the length of the list of attempts and lies
    between 1 and 1 + MAX_RETRIES, with MAX_RETRIES = 2; the attempts of
    that list are numbered 1, 2, ... without a gap; the loop sends one
    correction request for each attempt after the first, so at most
    1 + MAX_RETRIES calls are made in all; each correction request follows
    an attempt whose validation is invalid; and the validation recorded
    with an attempt is the validator's result on its component. *)
Theorem attempts_are_bounded_and_contiguous (user_prompt : str)
    (history : option (list message)) (w0 w1 : world) (c : component) :
  generator_fn user_prompt (Some (default [] history)) w0 = Ok (c, w1) ->
  exists l reqs,
    run generator_fn user_prompt history w0 = Ok (l, w1 ++ reqs)
    /\ generate_with_correction generator_fn user_prompt history w0
       = Ok (returned l, w1 ++ reqs)
    /\ MAX_RETRIES = 2
    /\ 1 <= attempts_made (returned l) <= 1 + MAX_RETRIES
    /\ attempts_made (returned l) = length (attempts l)
    /\ map attempt (attempts l) = seq 1 (length (attempts l))
    /\ 1 + length reqs = attempts_made (returned l)
    /\ 1 + length reqs <= 1 + MAX_RETRIES
    /\ Forall (fun a => valid (validation_of a) = false)
              (take (length reqs) (attempts l))
    /\ Forall (fun a => validation_of a = Validator.validate_component ds (code a))
              (attempts l).
Proof.
  intros Hg. destruct (run_spec _ _ _ _ _ Hg) as (l & w' & extra & reqs & Hr & Hgw & R).
  destruct R. cbn [attempts validation_] in *. rewrite length_seq in run_bound0.
  exists l, reqs. rewrite <- run_world0.
  split; [exact Hr|]. split; [exact Hgw|]. split; [reflexivity|].
  cbn [attempts_made returned]. rewrite run_attempts0. cbn [app length map attempt].
  rewrite run_numbers0, retry_numbers by done.
  repeat split; try lia.
  - rewrite run_calls0.
    change (Validator.validate_component ds c :: map validation_of extra)
      with (validation_of <$> (Attempt 1 c (Validator.validate_component ds c) :: extra))
      in run_invalid0.
    rewrite <- fmap_take in run_invalid0. apply Forall_fmap in run_invalid0.
    exact run_invalid0.
  - apply List.Forall_cons; [reflexivity | exact run_validated0].
Qed.

(** C4.  Once the generator has returned, the component and the
    validation that [generate_with_correction] returns are those of the
    last recorded attempt, whatever the earlier attempts were; [success]
    is the [valid] flag of that validation; the validation, with its list
    of errors, is the validator's result for that component, also when
    the retries are used up and it is still invalid. *)
Theorem last_attempt_is_returned (user_prompt : str)
    (history : option (list message)) (w0 w1 : world) (c : component) :
  generator_fn user_prompt (Some (default [] history)) w0 = Ok (c, w1) ->
  exists l w' out latest,
    run generator_fn user_prompt history w0 = Ok (l, w')
    /\ generate_with_correction generator_fn user_prompt history w0 = Ok (out, w')
    /\ last (attempts l) = Some latest
    /\ attempt latest = length (attempts l)
    /\ final_code out = code latest
    /\ final_validation out = validation_of latest
    /\ errors (final_validation out) = errors (validation_of latest)
    /\ validation_of latest = Validator.validate_component ds (code latest)
    /\ success out = valid (final_validation out)
    /\ attempts_made out = length (attempts l)
    /\ (valid (final_validation out) = true
        \/ attempts_made out = 1 + MAX_RETRIES).
Proof.
  intros Hg. destruct (run_spec _ _ _ _ _ Hg) as (l & w' & extra & reqs & Hr & Hgw & R).
  destruct R. cbn [attempts validation_ result_] in *. rewrite length_seq in run_bound0.
  set (v := Validator.validate_component ds c) in *.
  assert (exists latest,
            last (Attempt 1 c v :: extra) = Some latest
            /\ (result_ l, validation_ l) = (code latest, validation_of latest)
            /\ validation_of latest = Validator.validate_component ds (code latest)
            /\ attempt latest = S (length extra)) as (latest & Hl & Hp & Hv & Hn).
  { rewrite last_cons. destruct (last extra) as [a|] eqn:El.
    - exists a. split; [done|]. split; [exact run_last0|].
      apply last_Some in El as [front ->].
      apply Forall_app in run_validated0 as [_ Fa]. inversion Fa; subst.
      split; [done|].
      rewrite retry_numbers in run_numbers0 by done.
      rewrite map_app, length_app in run_numbers0. cbn [map length] in run_numbers0.
      rewrite Nat.add_1_r in run_numbers0. rewrite seq_S in run_numbers0.
      apply app_inj_tail in run_numbers0 as [_ ->].
      rewrite length_app. simpl. lia.
    - apply last_None in El. subst extra. exists (Attempt 1 c v).
      split; [done|]. split; [exact run_last0|]. done. }
  injection Hp as Hc Hvv.
  exists l, w', (returned l), latest. rewrite run_attempts0.
  cbn [returned final_code final_validation success attempts_made app length].
  rewrite Hc, Hvv, run_attempts0. cbn [app length].
  repeat split; try done.
  rewrite <- Hvv. destruct run_stop0 as [?|E]; [by left | right]. rewrite E, length_seq. done.
Qed.

End OrchestratorFacts.

(** ** The extractor and the text it is given *)

Section ExtractorFacts.
Import Re Generator.

Lemma finditer_no_match (r : t) (s : str) :
  search r s = None -> finditer r s = ([], s).
Proof. intros H. unfold finditer. by rewrite (scan_search_none r s None [] H). Qed.

(** Without a match [sub] returns the text as it is. *)
Lemma sub_no_match (r : t) (repl : hit -> str) (s : str) (count : nat) :
  search r s = None -> sub r repl s count = s.
Proof.
  intros H. unfold sub. rewrite finditer_no_match by done.
  by destruct count.
Qed.

(** [split] at the first match: the text itself, or the texts on the two
    sides of the match. *)
Lemma split_first (r : t) (s : str) :
  split r s 1 = [s]
  \/ exists a w b, split r s 1 = [a; b] /\ s = a ++ w ++ b.
Proof.
  unfold split. destruct (finditer r s) as [hs tl] eqn:E.
  apply finditer_text in E. destruct hs as [|h hs]; simpl in *.
  - left. by rewrite E.
  - right. exists (gap h), (whole h), (untouched hs ++ tl).
    rewrite drop_0. split; [done|]. by rewrite E, <- !app_assoc.
Qed.

Lemma drop_sublist {A} (n : nat) (l : list A) : drop n l `sublist_of` l.
Proof. apply sublist_drop. Qed.

(** The part kept of a segment: leading prose dropped, blanks and a
    trailing run of dashes or backquotes removed. *)
Lemma trimmed_sublist (start_re : Re.t) (part : str) :
  sub trailer_re (fun _ => [])
      (Str.strip match search start_re part with
                 | Some m => drop (start m) part
                 | None => part
                 end) 0
  `sublist_of` part.
Proof.
  etrans; [apply sub_delete_sublist|]. etrans; [apply strip_sublist|].
  destruct (search start_re part); [apply drop_sublist | reflexivity].
Qed.

(** The two segments, one after the other, are a subsequence of the
    cleaned response. *)
Lemma segments_sublist (raw_text ts_code html_code : str) :
  segments raw_text = Ok (ts_code, html_code) ->
  ts_code ++ html_code `sublist_of` _clean_output raw_text.
Proof.
  unfold segments.
  set (c1 := _clean_output raw_text).
  set (c2 := sub log_line_re _ c1 0).
  set (c3 := sub aside_re _ c2 0).
  assert (c3 `sublist_of` c1) as Hc.
  { etrans; apply sub_delete_sublist. }
  intros H.
  assert (exists ts_part html_part,
             ts_part ++ html_part `sublist_of` c3
             /\ ts_code `sublist_of` ts_part /\ html_code `sublist_of` html_part)
    as (tp & hp & Hp & Ht & Hh).
  { destruct (length (split sep_pattern c3 1) =? 2) eqn:El.
    - destruct (split_first sep_pattern c3) as [E | (a & w & b & E & Hs)];
        rewrite E in H, El; [discriminate|].
      cbn [mbind result_bind mret result_ret unpack2] in H.
      injection H as <- <-. exists a, b. split.
      + rewrite Hs. apply sublist_app; [reflexivity|]. by apply sublist_inserts_l.
      + split; apply trimmed_sublist.
    - destruct (search tag_re c3) as [m|];
        cbn [mbind result_bind mret result_ret] in H; injection H as <- <-.
      + exists (take (start m) c3), (drop (start m) c3). rewrite take_drop.
        split; [reflexivity|]. split; apply trimmed_sublist.
      + exists c3, []. rewrite app_nil_r.
        split; [reflexivity|]. split; [apply trimmed_sublist|].
        etrans; [apply sub_delete_sublist | apply strip_sublist]. }
  etrans; [|exact Hc]. etrans; [|exact Hp]. by apply sublist_app.
Qed.

(** Without rewriting the extractor returns the two trimmed segments. *)
Lemma extract_plain (raw_text ts_code html_code : str) :
  segments raw_text = Ok (ts_code, html_code) ->
  search tpl_re ts_code = None
    \/ Str.eqb html_code [] || Str.eqb (Str.strip html_code) [] = false ->
  uses_ngmodel ts_code html_code raw_text = false ->
  search template_url_re ts_code = None ->
  extract raw_text = Ok (Component (Str.strip ts_code) (Str.strip html_code) raw_text).
Proof.
  intros Hs Ht Hn Hu.
  unfold extract. rewrite Hs. cbn [mbind result_bind].
  assert (inline_template ts_code html_code = Ok (ts_code, html_code)) as ->.
  { unfold inline_template. destruct Ht as [-> | Ht]; [done|].
    destruct (search tpl_re ts_code); [|done]. by rewrite Ht. }
  cbn [mbind result_bind]. rewrite Hn. cbn [mbind result_bind mret result_ret].
  unfold canonical_template_url. by rewrite sub_no_match.
Qed.

(** C1 as amended.  Whenever the response needs none of the rewriting
    steps (no inlined template is moved to the markup, the ngModel token
    occurs in neither segment nor in the response, and the source has no
    templateUrl reference), the extractor returns the two trimmed segments,
    and the source followed by the markup is a subsequence of the cleaned
    response. *)
Theorem plain_extraction_is_subsequence (raw_text ts_code html_code : str) :
  segments raw_text = Ok (ts_code, html_code) ->
  search tpl_re ts_code = None
    \/ Str.eqb html_code [] || Str.eqb (Str.strip html_code) [] = false ->
  uses_ngmodel ts_code html_code raw_text = false ->
  search template_url_re ts_code = None ->
  exists c,
    extract raw_text = Ok c
    /\ ts c = Str.strip ts_code /\ html c = Str.strip html_code
    /\ ts c ++ html c `sublist_of` _clean_output raw_text.
Proof.
  intros Hs Ht Hn Hu.
  exists (Component (Str.strip ts_code) (Str.strip html_code) raw_text).
  split; [by apply extract_plain|].
  split; [done|]. split; [done|]. cbn [ts html].
  etrans; [|by apply segments_sublist].
  apply sublist_app; apply strip_sublist.
Qed.



(** X14.  Without a separator the loop keeps the markup of the attempt
    before, trimmed again, and takes the whole response as the source. *)
Lemma correction_without_separator (previous : component) (raw_text : str) :
  let normalised :=
    sub Corrector.separator_re (fun _ => py "---HTML---") (_clean_output raw_text) 0 in
  Str.contains (py "---HTML---") normalised = false ->
  exists c,
    Corrector.reextract previous raw_text = Ok c
    /\ html c `sublist_of` html previous
    /\ ts c `sublist_of` normalised.
Proof.
  cbv zeta. intros H. unfold Corrector.reextract. rewrite H.
  cbn [mbind result_bind mret result_ret]. eexists. split; [reflexivity|].
  cbn [ts html]. split; (etrans; [apply strip_sublist | apply trimmed_sublist]).
Qed.


End ExtractorFacts.

(** ** Counting occurrences *)












(** ** FormsModule *)

Section FormsFacts.
Import Re Generator.










End FormsFacts.

(** ** The claims on sample inputs *)

Section Samples.
Import Sample.

(** With ngModel in the markup the import line of FormsModule is put
    before the source: the source is longer than the cleaned response. *)
Lemma injected_import_is_not_from_the_response :
  exists c,
    Generator.extract ngmodel_response = Ok c
    /\ ~ ts c ++ html c `sublist_of` Generator._clean_output ngmodel_response.
Proof.
  eexists. split; [vm_compute; reflexivity|].
  intros H%sublist_length. vm_compute in H. lia.
Qed.

Lemma plain_extraction_witness :
  exists c,
    Generator.extract plain_response = Ok c
    /\ ts c ++ html c `sublist_of` Generator._clean_output plain_response.
Proof.
  edestruct (plain_extraction_is_subsequence plain_response) as (c & He & _ & _ & Hs).
  - vm_compute. reflexivity.
  - left. vm_compute. reflexivity.
  - vm_compute. reflexivity.
  - vm_compute. reflexivity.
  - exists c. split; [exact He | exact Hs].
Defined.




(** The model of [reply] answers the first request with a source that
    is invalid and the second with a valid component: the run records two
    attempts, numbered 1 and 2, after one correction request. *)
Lemma bounded_attempts_witness :
  exists l reqs w1,
    Corrector.run reply design system_prompt correction_format
      generator (py "a card") None [] = Ok (l, w1 ++ reqs)
    /\ Corrector.generate_with_correction reply design system_prompt correction_format
         generator (py "a card") None [] = Ok (Corrector.returned l, w1 ++ reqs)
    /\ 1 <= Corrector.attempts_made (Corrector.returned l) <= 1 + Corrector.MAX_RETRIES
    /\ map Corrector.attempt (Corrector.attempts l) = [1; 2]
    /\ length reqs = 1
    /\ Forall (fun a => valid (Corrector.validation_of a) = false)
              (take (length reqs) (Corrector.attempts l)).
Proof.
  edestruct (attempts_are_bounded_and_contiguous reply design system_prompt
               correction_format generator (py "a card") None [])
    as (l & reqs & Hr & Hg & _ & Hb & _ & Hn & Hq & _ & Hi & _).
  - vm_compute. reflexivity.
  - assert (length (Corrector.attempts l) = 2) as Hl.
    { vm_compute in Hr. injection Hr as <- _. reflexivity. }
    exists l, reqs. eexists. split; [exact Hr|]. split; [exact Hg|]. split; [exact Hb|].
    split; [by rewrite Hn, Hl|]. split; [|exact Hi].
    cbn [Corrector.attempts_made Corrector.returned] in Hq. lia.
Defined.

(** The stubborn model: the first attempt has one error, the third and
    last has three, and the last is what is returned. *)
Lemma last_attempt_witness :
  exists l w out latest,
    Corrector.run stubborn design system_prompt correction_format stubborn_generator
      (py "a card") None [] = Ok (l, w)
    /\ Corrector.generate_with_correction stubborn design system_prompt correction_format
         stubborn_generator (py "a card") None [] = Ok (out, w)
    /\ last (Corrector.attempts l) = Some latest
    /\ Corrector.final_code out = Corrector.code latest
    /\ Corrector.final_validation out = Corrector.validation_of latest
    /\ Corrector.success out = valid (Corrector.final_validation out).
Proof.
  edestruct (last_attempt_is_returned stubborn design system_prompt correction_format
               stubborn_generator (py "a card") None [])
    as (l & w & out & latest & Hr & Hg & Hl & _ & Hc & Hv & _ & _ & Hs & _).
  - vm_compute. reflexivity.
  - exists l, w, out, latest. repeat split; assumption.
Defined.

Lemma stubborn_run_returns_the_worse_attempt :
  exists l w,
    Corrector.run stubborn design system_prompt correction_format stubborn_generator
      (py "a card") None [] = Ok (l, w)
    /\ map (fun a => error_count (Corrector.validation_of a)) (Corrector.attempts l)
       = [1; 3; 3]
    /\ error_count (Corrector.validation_ l) = 3.
Proof. eexists _, _. split; [vm_compute; reflexivity|]. split; reflexivity. Qed.

(** The literal [#abcdef] of the source followed at once by the markup
    is not one of the text that the check reads. *)
Lemma newline_between_source_and_markup :
  List.filter (Checks.is_kind Checks.UNAUTHORIZED_COLOR)
              (errors (Validator.validate_component design split_color)) = []
  /\ List.filter (Checks.unauthorized design)
                 (Re.findall Validator.color_re (ts split_color ++ html split_color))
     = [py "#abcdef"].
Proof. split; vm_compute; reflexivity. Qed.

Lemma color_error_witness :
  List.filter (Checks.is_kind Checks.UNAUTHORIZED_COLOR)
              (errors (Validator.validate_component design black_text))
  = [py "UNAUTHORIZED_COLOR: '#000000' is not in the design system. Allowed: ['#ffffff']"].
Proof.
  apply (proj1 (proj2 (color_error_per_unauthorized_literal design black_text))
           (py "color: ") (py ";" ++ [NL] ++ py "<div>")).
  - reflexivity.
  - simpl. intuition discriminate.
  - simpl. intuition discriminate.
  - reflexivity.
Defined.

Lemma mixed_radii_witness :
  Checks.detected mixed_radii = [py "3px"; py "8px"]
  /\ ~ Checks.emits Checks.UNAUTHORIZED_RADIUS
         (Validator.validate_component design mixed_radii)
  /\ In (py "3px") (Checks.declared four_patterns)
  /\ In (py "16px") (Checks.symbolic four_patterns)
  /\ In (py "12px") (Checks.bracketed four_patterns)
  /\ In (py "24px") (Checks.dashed four_patterns).
Proof.
  split; [vm_compute; reflexivity|]. split.
  { destruct (radius_error_iff_none_allowed design mixed_radii)
      as (_ & _ & _ & _ & _ & _ & Hpass & _).
    apply Hpass. exists (py "8px"). split; [vm_compute; tauto | vm_compute; tauto]. }
  destruct (radius_error_iff_none_allowed design four_patterns)
    as (_ & Hdecl & Hsym & Hbr & Hdash & _).
  split.
  { apply (Hdecl [] [] (py " ") (py "3") (py ";" ++ [NL] ++ html four_patterns));
      [reflexivity | reflexivity | discriminate | reflexivity | reflexivity]. }
  split.
  { apply (Hsym (py "rounded-lg")); [vm_compute; tauto | vm_compute; reflexivity]. }
  split.
  { apply (Hbr (py "border-radius: 3px;" ++ [NL] ++ py "<div class='rounded-lg ")
               [] (py "12") [] (py " rounded-24px'>"));
      [reflexivity | reflexivity | discriminate | reflexivity | reflexivity]. }
  apply (Hdash (py "border-radius: 3px;" ++ [NL]
                ++ py "<div class='rounded-lg rounded-[12px] ")
               (py "24") (py "'>"));
    [discriminate | reflexivity | reflexivity].
Defined.


(** With the import of another module of [@angular/forms] the import
    line of FormsModule is not added. *)
Lemma other_forms_import_no_import :
  exists c,
    Generator.extract
      (lines [ py "import { ReactiveFormsModule } from '@angular/forms';";
               py "export class Box {}"; py "---HTML---"; py "<input ngModel>" ]) = Ok c
    /\ Capability.import_count (ts c) = 0.
Proof. eexists. split; [vm_compute; reflexivity|]. vm_compute; reflexivity. Qed.


Lemma surrounded_witness :
  In (py "8px") (Checks.detected surrounded)
  /\ (In (py "8px") (Checks.radii design) ->
      ~ Checks.emits Checks.UNAUTHORIZED_RADIUS
          (Validator.validate_component design surrounded)).
Proof.
  apply (rounded_substring_detects_8px design surrounded
           (py "x" ++ [NL] ++ py "<div class='sur") (py "'>")).
  reflexivity.
Defined.

End Samples.

(** * Further properties of the code *)

(** ** Trimming and lines *)

Lemma lstrip_idem (s : str) : Str.lstrip (Str.lstrip s) = Str.lstrip s.
Proof.
  induction s as [|c s IH]; simpl; [done|].
  destruct (Char.isspace c) eqn:E; [exact IH|]. simpl. by rewrite E.
Qed.

Lemma lstrip_head (s : str) :
  match Str.lstrip s with
  | c :: _ => Char.isspace c = false
  | [] => True
  end.
Proof.
  induction s as [|c s IH]; simpl; [done|].
  destruct (Char.isspace c) eqn:E; [exact IH | exact E].
Qed.

Lemma lstrip_fixed (c : ascii) (s : str) :
  Char.isspace c = false -> Str.lstrip (c :: s) = c :: s.
Proof. intros E. simpl. by rewrite E. Qed.

Lemma lstrip_app_keep (s t : str) :
  Str.lstrip s <> [] -> Str.lstrip (s ++ t) = Str.lstrip s ++ t.
Proof.
  induction s as [|c s IH]; simpl; [done|].
  destruct (Char.isspace c); [exact IH | done].
Qed.

Lemma lstrip_blank_app (a s : str) :
  forallb Char.isspace a = true -> Str.lstrip (a ++ s) = Str.lstrip s.
Proof.
  induction a as [|c a IH]; simpl; [done|].
  intros [-> H]%andb_true_iff. by apply IH.
Qed.

Lemma lstrip_blank (s : str) :
  exists a, s = a ++ Str.lstrip s /\ forallb Char.isspace a = true.
Proof.
  induction s as [|c s (a & E & Ha)]; simpl.
  - by exists [].
  - destruct (Char.isspace c) eqn:Ec.
    + exists (c :: a). simpl. rewrite Ec, Ha. split; [by rewrite E at 1 | done].
    + by exists [].
Qed.

Lemma rstrip_idem (s : str) : Str.rstrip (Str.rstrip s) = Str.rstrip s.
Proof. unfold Str.rstrip. by rewrite rev_involutive, lstrip_idem. Qed.

Lemma rstrip_blank (s : str) :
  exists b, s = Str.rstrip s ++ b /\ forallb Char.isspace b = true.
Proof.
  unfold Str.rstrip. destruct (lstrip_blank (rev s)) as (a & E & Ha).
  exists (rev a). split.
  - rewrite <- rev_app_distr, <- E. by rewrite rev_involutive.
  - rewrite forallb_forall in *. intros c Hc. apply Ha. by apply in_rev.
Qed.

Lemma lstrip_snoc (x : str) (c : ascii) :
  Char.isspace c = false -> exists y, Str.lstrip (x ++ [c]) = y ++ [c].
Proof.
  intros Ec. induction x as [|d x IH]; simpl.
  - rewrite Ec. by exists [].
  - destruct (Char.isspace d); [exact IH|]. by exists (d :: x).
Qed.

(** [rstrip] leaves a text that starts with a non-blank its start. *)
Lemma rstrip_cons (c : ascii) (s : str) :
  Char.isspace c = false -> exists s', Str.rstrip (c :: s) = c :: s'.
Proof.
  intros Ec. unfold Str.rstrip. simpl.
  destruct (lstrip_snoc (rev s) c Ec) as [y ->].
  rewrite rev_app_distr. simpl. eauto.
Qed.

(** A text is trimmed when [strip] leaves it as it is. *)
Lemma strip_idem (s : str) : Str.strip (Str.strip s) = Str.strip s.
Proof.
  unfold Str.strip.
  pose proof (lstrip_head s) as Hh.
  destruct (Str.lstrip s) as [|c u] eqn:E; [reflexivity|].
  destruct (rstrip_cons c u Hh) as [u' Eu]. rewrite Eu.
  rewrite (lstrip_fixed c u' Hh), <- Eu. apply rstrip_idem.
Qed.

Lemma strip_blank (s : str) :
  exists a b,
    s = a ++ Str.strip s ++ b
    /\ forallb Char.isspace a = true /\ forallb Char.isspace b = true.
Proof.
  unfold Str.strip. destruct (lstrip_blank s) as (a & Ea & Ha).
  destruct (rstrip_blank (Str.lstrip s)) as (b & Eb & Hb).
  exists a, b. split; [by rewrite <- Eb | done].
Qed.

Lemma blank_lstrip (s : str) : forallb Char.isspace s = true -> Str.lstrip s = [].
Proof.
  induction s as [|c s IH]; simpl; [done|].
  intros [-> H]%andb_true_iff. by apply IH.
Qed.

Lemma blank_rev (s : str) : forallb Char.isspace s = true -> forallb Char.isspace (rev s) = true.
Proof. rewrite !forallb_forall. intros H c Hc. apply H. by apply in_rev. Qed.

Lemma strip_blank_l (ws l : str) :
  forallb Char.isspace ws = true -> Str.strip (ws ++ l) = Str.strip l.
Proof. intros H. unfold Str.strip. by rewrite lstrip_blank_app. Qed.

Lemma rstrip_blank_app (l ws : str) :
  forallb Char.isspace ws = true -> Str.rstrip (l ++ ws) = Str.rstrip l.
Proof.
  intros H. unfold Str.rstrip. rewrite rev_app_distr.
  by rewrite lstrip_blank_app by by apply blank_rev.
Qed.

Lemma strip_blank_r (l ws : str) :
  forallb Char.isspace ws = true -> Str.strip (l ++ ws) = Str.strip l.
Proof.
  intros H. unfold Str.strip.
  destruct (Str.lstrip l) as [|c u] eqn:E.
  - destruct (lstrip_blank l) as (a & Ea & Ha). rewrite E, app_nil_r in Ea. subst a.
    rewrite lstrip_blank_app by done. by rewrite (blank_lstrip _ H).
  - rewrite lstrip_app_keep by (by rewrite E). rewrite E. by apply rstrip_blank_app.
Qed.

(** [split('\n')] and [join]. *)
Lemma split_lines_cons (c : ascii) (s : str) :
  Str.split_lines (c :: s)
  = if Ascii.eqb c NL then [] :: Str.split_lines s
    else match Str.split_lines s with
         | l :: ls => (c :: l) :: ls
         | [] => [[c]]
         end.
Proof. reflexivity. Qed.

Lemma split_lines_nonempty (s : str) : Str.split_lines s <> [].
Proof.
  induction s as [|c s IH]; [done|]. rewrite split_lines_cons.
  destruct (Ascii.eqb c NL); [done|]. by destruct (Str.split_lines s).
Qed.

Lemma join_cons (sep x : str) (l : list str) :
  l <> [] -> Str.join sep (x :: l) = x ++ sep ++ Str.join sep l.
Proof. by destruct l. Qed.

Lemma join_split_lines (s : str) : Str.join [NL] (Str.split_lines s) = s.
Proof.
  induction s as [|c s IH]; [done|]. rewrite split_lines_cons.
  pose proof (split_lines_nonempty s) as Hne.
  destruct (Ascii.eqb c NL) eqn:E.
  - apply Ascii.eqb_eq in E as ->. rewrite join_cons by done. by rewrite IH.
  - destruct (Str.split_lines s) as [|l ls]; [done|].
    destruct ls as [|l2 ls]; simpl in *; by rewrite <- IH.
Qed.

Lemma split_lines_no_newline (s : str) :
  Forall (fun l => ~ In NL l) (Str.split_lines s).
Proof.
  induction s as [|c s IH].
  - apply List.Forall_cons; [by intros [] | apply List.Forall_nil].
  - rewrite split_lines_cons.
    destruct (Ascii.eqb c NL) eqn:E.
    + apply List.Forall_cons; [by intros [] | exact IH].
    + pose proof (split_lines_nonempty s) as Hne.
      destruct (Str.split_lines s) as [|l ls]; [done|].
      inversion IH as [|? ? Hl Hls]; subst. apply List.Forall_cons; [|done].
      intros [->|H]; [|done]. by rewrite Ascii.eqb_refl in E.
Qed.

Lemma split_lines_line (l : str) : ~ In NL l -> Str.split_lines l = [l].
Proof.
  induction l as [|c l IH]; [done|]. intros H. rewrite split_lines_cons.
  destruct (Ascii.eqb c NL) eqn:E.
  - apply Ascii.eqb_eq in E. subst. exfalso. apply H. by left.
  - rewrite IH; [done|]. intros ?. apply H. by right.
Qed.

Lemma split_lines_app_line (l : str) (s : str) :
  ~ In NL l ->
  Str.split_lines (l ++ NL :: s) = l :: Str.split_lines s.
Proof.
  induction l as [|c l IH]; intros H.
  - simpl. done.
  - cbn [app]. rewrite split_lines_cons.
    destruct (Ascii.eqb c NL) eqn:E.
    + apply Ascii.eqb_eq in E. subst. exfalso. apply H. by left.
    + rewrite IH; [done|]. intros ?. apply H. by right.
Qed.

Lemma split_lines_join (ls : list str) :
  ls <> [] -> Forall (fun l => ~ In NL l) ls ->
  Str.split_lines (Str.join [NL] ls) = ls.
Proof.
  induction ls as [|l ls IH]; [done|]. intros _ F.
  inversion F as [|? ? Hl Hls]; subst.
  destruct ls as [|l2 ls].
  - simpl. by apply split_lines_line.
  - rewrite join_cons by done. cbn [app].
    rewrite split_lines_app_line by done. by rewrite IH.
Qed.

(** The lines of two texts put together: the last line of the first
    text runs on into the first line of the second. *)
Lemma split_lines_app (x y h : str) (t : list str) :
  Str.split_lines y = h :: t ->
  exists ini la,
    Str.split_lines x = ini ++ [la]
    /\ Str.split_lines (x ++ y) = ini ++ [la ++ h] ++ t.
Proof.
  intros Hy. induction x as [|c x (ini & la & Ex & Exy)].
  - exists [], []. split; [done | exact Hy].
  - cbn [app]. rewrite !split_lines_cons, Ex, Exy.
    destruct (Ascii.eqb c NL).
    + exists ([] :: ini), la. done.
    + destruct ini as [|i0 ini]; simpl.
      * exists [], (c :: la). done.
      * exists ((c :: i0) :: ini), la. done.
Qed.

Lemma blank_lines (b : str) :
  forallb Char.isspace b = true ->
  Forall (fun l => forallb Char.isspace l = true) (Str.split_lines b).
Proof.
  induction b as [|c b IH].
  - intros _. apply List.Forall_cons; [done | apply List.Forall_nil].
  - simpl forallb. intros [Hc Hb]%andb_true_iff. specialize (IH Hb).
    rewrite split_lines_cons. destruct (Ascii.eqb c NL).
    + apply List.Forall_cons; [done | exact IH].
    + pose proof (split_lines_nonempty b) as Hne.
      destruct (Str.split_lines b) as [|l ls]; [done|].
      inversion IH; subst. apply List.Forall_cons; [|done]. simpl. by rewrite Hc.
Qed.

(** Blanks around a text change its lines only by blanks at their ends. *)
Lemma lines_within_blanks (a x b : str) :
  forallb Char.isspace a = true -> forallb Char.isspace b = true ->
  Forall (fun l' => exists l, In l (Str.split_lines (a ++ x ++ b))
                              /\ Str.strip l = Str.strip l')
         (Str.split_lines x).
Proof.
  intros Ha Hb.
  destruct (Str.split_lines b) as [|hb tb] eqn:Eb; [by apply split_lines_nonempty in Eb|].
  destruct (split_lines_app x b hb tb Eb) as (ini & la & Ex & Exb).
  assert (forallb Char.isspace hb = true) as Hhb.
  { pose proof (blank_lines b Hb) as F. rewrite Eb in F. by inversion F. }
  destruct (Str.split_lines (x ++ b)) as [|hz tz] eqn:Ez;
    [by apply split_lines_nonempty in Ez|].
  destruct (split_lines_app a (x ++ b) hz tz Ez) as (ia & laa & Ea & Eaz).
  assert (forallb Char.isspace laa = true) as Hla.
  { pose proof (blank_lines a Ha) as F. rewrite Ea in F.
    apply Forall_app in F as [_ F]. by inversion F. }
  assert (forall l, In l (hz :: tz) ->
            exists l2, In l2 (Str.split_lines (a ++ x ++ b)) /\ Str.strip l2 = Str.strip l)
    as Hz.
  { intros l [<-|Hl]; rewrite Eaz.
    - exists (laa ++ hz). split; [|by apply strip_blank_l].
      rewrite !in_app_iff. right. left. by left.
    - exists l. split; [|done]. rewrite !in_app_iff. right. by right. }
  rewrite Ex. apply Forall_forall. intros l' Hl'%list_elem_of_In.
  apply in_app_iff in Hl' as [Hl'|[<-|[]]].
  - destruct (Hz l') as (l2 & H2 & E2); [|eauto].
    rewrite Exb. rewrite in_app_iff. by left.
  - destruct (Hz (la ++ hb)) as (l2 & H2 & E2).
    + rewrite Exb. rewrite !in_app_iff. right. left. by left.
    + exists l2. split; [done|]. rewrite E2. by apply strip_blank_r.
Qed.

(** ** [_clean_output] *)

Section CleanOutput.
Import Generator.

Lemma filter_all {A} (f : A -> bool) (l : list A) :
  Forall (fun x => f x = true) l -> List.filter f l = l.
Proof. induction 1 as [|x l Hx Hl IH]; simpl; [done|]. by rewrite Hx, IH. Qed.

Lemma join_sublist (sep : str) (l1 l2 : list str) :
  l1 `sublist_of` l2 -> Str.join sep l1 `sublist_of` Str.join sep l2.
Proof.
  induction 1 as [|x l1 l2 H IH|x l1 l2 H IH].
  - constructor.
  - destruct l1 as [|y l1].
    + destruct l2 as [|z l2]; [reflexivity|].
      rewrite (join_cons sep x (z :: l2)) by done.
      apply sublist_inserts_r. reflexivity.
    + destruct l2 as [|z l2]; [by apply sublist_nil_r in H|].
      rewrite !join_cons by discriminate.
      apply sublist_app; [reflexivity|]. apply sublist_app; [reflexivity | exact IH].
  - destruct l2 as [|z l2].
    + apply sublist_nil_r in H. subst. apply sublist_nil_l.
    + rewrite join_cons by discriminate. do 2 apply sublist_inserts_l. exact IH.
Qed.

Lemma filter_sublist {A} (f : A -> bool) (l : list A) : List.filter f l `sublist_of` l.
Proof.
  induction l as [|x l IH]; simpl; [constructor|].
  destruct (f x); [by apply sublist_skip | by apply sublist_cons].
Qed.

(** X1.  The text that [_clean_output] returns is taken from the text it
    is given, in order, and has no blank at either end. *)
Theorem clean_output_is_trimmed_subsequence (text : str) :
  _clean_output text `sublist_of` text
  /\ Str.strip (_clean_output text) = _clean_output text.
Proof.
  unfold _clean_output. split; [|apply strip_idem].
  etrans; [apply strip_sublist|].
  rewrite <- (join_split_lines text) at 2.
  apply join_sublist, filter_sublist.
Qed.

Lemma clean_output_lines (text : str) :
  Forall (fun l => Str.startswith (py "```") (Str.strip l) = false)
         (Str.split_lines (_clean_output text)).
Proof.
  unfold _clean_output.
  set (keep := fun line => negb (Str.startswith (py "```") (Str.strip line))).
  set (kept := List.filter keep (Str.split_lines text)).
  destruct (strip_blank (Str.join [NL] kept)) as (a & b & E & Ha & Hb).
  pose proof (lines_within_blanks a (Str.strip (Str.join [NL] kept)) b Ha Hb) as F.
  rewrite <- E in F.
  eapply Forall_impl; [exact F|]. intros l' (l & Hl & <-).
  destruct kept as [|k kept'] eqn:Ek.
  - simpl in Hl. destruct Hl as [<-|[]]. reflexivity.
  - rewrite split_lines_join in Hl.
    + rewrite <- Ek in Hl. subst kept. apply filter_In in Hl as [_ Hk].
      unfold keep in Hk. by apply negb_true_iff in Hk.
    + done.
    + rewrite <- Ek. subst kept.
      pose proof (split_lines_no_newline text) as Fn. rewrite Forall_forall in Fn.
      apply Forall_forall. intros l0 Hl0%list_elem_of_In.
      apply filter_In in Hl0 as [Hl0 _]. apply Fn. by apply list_elem_of_In.
Qed.

(** X2.  No line of the text that [_clean_output] returns starts, after
    its leading blanks, with three backquotes; cleaning a cleaned text
    changes nothing. *)
Theorem clean_output_removes_fences_for_good (text : str) :
  Forall (fun l => Str.startswith (py "```") (Str.strip l) = false)
         (Str.split_lines (_clean_output text))
  /\ _clean_output (_clean_output text) = _clean_output text.
Proof.
  split; [apply clean_output_lines|].
  unfold _clean_output at 1. rewrite filter_all.
  - rewrite join_split_lines. unfold _clean_output. apply strip_idem.
  - eapply Forall_impl; [apply clean_output_lines|].
    intros l Hl. cbv beta. by rewrite Hl.
Qed.

Lemma startswith_head_in (p s : str) (c : ascii) :
  Str.startswith (c :: p) s = true -> In c s.
Proof.
  destruct s as [|d s]; simpl; [done|].
  intros [->%Ascii.eqb_eq _]%andb_true_iff. by left.
Qed.

(** X3.  A text without a backquote is only trimmed. *)
Theorem clean_output_without_backquote (text : str) :
  ~ In BQ text -> _clean_output text = Str.strip text.
Proof.
  intros H. unfold _clean_output. rewrite filter_all; [by rewrite join_split_lines|].
  apply Forall_forall. intros l Hl.
  apply negb_true_iff. destruct (Str.startswith _ _) eqn:E; [|done].
  exfalso. apply H.
  change (py "```") with (BQ :: py "``") in E. apply startswith_head_in in E.
  pose proof (strip_sublist l) as Hs.
  assert (In BQ l) as Hb.
  { apply list_elem_of_In. eapply elem_of_sublist; [|exact Hs]. by apply list_elem_of_In. }
  clear E Hs. rewrite <- (join_split_lines text).
  revert Hl. generalize (Str.split_lines text). intros ls Hl%list_elem_of_In.
  induction ls as [|x ls IH]; [done|].
  destruct ls as [|y ls].
  - destruct Hl as [->|[]]. done.
  - rewrite join_cons by discriminate. rewrite !in_app_iff.
    destruct Hl as [->|Hl]; [by left | right; right; by apply IH].
Qed.

End CleanOutput.

(** ** More on the validator *)

Section ValidatorMore.
Import Validator Checks.
Variable ds : design_system.

Lemma errors_of_kind (code : component) :
  List.filter (is_kind MISSING_FONT) (errors (validate_component ds code)) = font_check code
  /\ List.filter (is_kind SYNTAX_ERROR) (errors (validate_component ds code))
     = balance_check code.
Proof.
  rewrite errors_by_check, !List.filter_app.
  pose proof (color_check_kind ds code) as F1. pose proof (font_check_kind code) as F2.
  pose proof (radius_check_kind ds code) as F3. pose proof (balance_check_kind code) as F4.
  pose proof (marker_check_kind code) as F5.
  split.
  - rewrite (filter_kind_all _ _ F2).
    rewrite (filter_kind_none _ (color_check ds code)),
            (filter_kind_none _ (radius_check ds code)),
            (filter_kind_none _ (balance_check code)),
            (filter_kind_none _ (marker_check code)).
    + by rewrite !app_nil_r.
    + eapply Forall_impl; [exact F5|]. intros e [H|H]; congruence.
    + eapply Forall_impl; [exact F4|]. intros e H; congruence.
    + eapply Forall_impl; [exact F3|]. intros e H; congruence.
    + eapply Forall_impl; [exact F1|]. intros e H; congruence.
  - rewrite (filter_kind_all _ _ F4).
    rewrite (filter_kind_none _ (color_check ds code)),
            (filter_kind_none _ (radius_check ds code)),
            (filter_kind_none _ (font_check code)),
            (filter_kind_none _ (marker_check code)).
    + by rewrite !app_nil_r.
    + eapply Forall_impl; [exact F5|]. intros e [H|H]; congruence.
    + eapply Forall_impl; [exact F2|]. intros e H; congruence.
    + eapply Forall_impl; [exact F3|]. intros e H; congruence.
    + eapply Forall_impl; [exact F1|]. intros e H; congruence.
Qed.

(** X4.  A component is valid exactly when every colour literal of its
    text is an allowed colour whatever its case, the text contains
    [Inter], no radius is detected or some detected radius is allowed,
    each of the three kinds of bracket is opened as often as it is closed
    in the source, and the source contains [@Component] and
    [export class]. *)
Theorem valid_iff_all_checks_pass (code : component) :
  valid (validate_component ds code) = true
  <-> Forall (fun color => In (Str.lower color) (map Str.lower (allowed_colors ds)))
             (Re.findall color_re (full_code code))
      /\ Str.contains (py "Inter") (full_code code) = true
      /\ (detected code = [] \/ exists r, In r (detected code) /\ In r (radii ds))
      /\ Forall (fun '(o, c) => Str.count [o] (ts code) = Str.count [c] (ts code)) brackets
      /\ Str.contains (py "@Component") (ts code) = true
      /\ Str.contains (py "export class") (ts code) = true.
Proof.
  assert (valid (validate_component ds code) = true
          <-> errors (validate_component ds code) = []) as ->.
  { change (valid (validate_component ds code))
      with (Nat.eqb (length (errors (validate_component ds code))) 0).
    rewrite Nat.eqb_eq. apply length_zero_iff_nil. }
  rewrite errors_by_check.
  assert (color_check ds code = []
          <-> Forall (fun color => In (Str.lower color) (map Str.lower (allowed_colors ds)))
                     (Re.findall color_re (full_code code))) as Hc.
  { unfold color_check. generalize (Re.findall color_re (full_code code)). intros l.
    induction l as [|x l IH]; simpl; [split; [constructor | done]|].
    unfold unauthorized at 1. destruct (Str.mem _ _) eqn:E; simpl.
    - rewrite IH. apply str_mem_In in E. split.
      + intros F. by constructor.
      + intros F. by inversion F.
    - split; [done|]. intros F. inversion F as [|? ? Hx _]; subst.
      apply str_mem_In in Hx. unfold allowed in E. congruence. }
  assert (font_check code = [] <-> Str.contains (py "Inter") (full_code code) = true) as Hf.
  { unfold font_check. destruct (Str.contains _ _); split; done. }
  assert (radius_check ds code = []
          <-> detected code = [] \/ exists r, In r (detected code) /\ In r (radii ds)) as Hr.
  { unfold radius_check. destruct (detected code) as [|r l] eqn:Ed.
    - split; [by left | done].
    - destruct (existsb _ _) eqn:Ex.
      + split; [|done]. intros _. right.
        apply existsb_exists in Ex as (x & Hx & Hm). apply str_mem_In in Hm. eauto.
      + split; [done|]. intros [?|(x & Hx & Hm)]; [done|].
        assert (existsb (fun r => Str.mem r (radii ds)) (r :: l) = true) as Hex.
        { apply existsb_exists. exists x. split; [done | by apply str_mem_In]. }
        congruence. }
  assert (balance_check code = []
          <-> Forall (fun '(o, c) => Str.count [o] (ts code) = Str.count [c] (ts code))
                     brackets) as Hb.
  { unfold balance_check, brackets. cbn [flat_map].
    destruct (Nat.eqb_spec (Str.count ["{"%char] (ts code)) (Str.count ["}"%char] (ts code)));
    destruct (Nat.eqb_spec (Str.count ["("%char] (ts code)) (Str.count [")"%char] (ts code)));
    destruct (Nat.eqb_spec (Str.count ["["%char] (ts code)) (Str.count ["]"%char] (ts code)));
      cbn [app]; split; try done;
      try (intros _; repeat (apply List.Forall_cons; [assumption|]); apply List.Forall_nil);
      intros F; inversion F as [|? ? H1 F1]; subst; inversion F1 as [|? ? H2 F2]; subst;
      inversion F2 as [|? ? H3 F3]; subst; done. }
  assert (marker_check code = []
          <-> Str.contains (py "@Component") (ts code) = true
              /\ Str.contains (py "export class") (ts code) = true) as Hm.
  { unfold marker_check.
    destruct (Str.contains (py "@Component") _), (Str.contains (py "export class") _);
      split; try done; intros [? ?]; done. }
  rewrite <- Hc, <- Hf, <- Hr, <- Hb, <- Hm. clear.
  split.
  - intros H. do 4 (apply app_eq_nil in H as [? H]). repeat split; assumption.
  - intros (-> & -> & -> & -> & ->). reflexivity.
Qed.

(** X5.  MISSING_FONT is reported exactly when [Inter] is nowhere in the
    text of the component; the validator reads the allowed colours and
    the three keys of allowed radii of the design system and nothing
    else, so the font that the design system requires plays no part. *)
Theorem font_check_ignores_required_font (ds' : design_system) (code : component) :
  allowed_colors ds' = allowed_colors ds ->
  border_radius_values ds' = border_radius_values ds ->
  allowed_radii ds' = allowed_radii ds ->
  allowed_radii_values ds' = allowed_radii_values ds ->
  validate_component ds' code = validate_component ds code
  /\ (emits MISSING_FONT (validate_component ds code)
      <-> Str.contains (py "Inter") (full_code code) = false).
Proof.
  intros H1 H2 H3 H4. split.
  - unfold validate_component. by rewrite H1, H2, H3, H4.
  - unfold emits. split.
    + intros (e & Hin & Hk).
      assert (In e (font_check code)) as Hf.
      { rewrite <- (proj1 (errors_of_kind code)). apply filter_In. split; [done|].
        by apply is_kind_iff. }
      unfold font_check in Hf. by destruct (Str.contains _ _).
    + intros Hc. exists font_message. split; [|reflexivity].
      assert (In font_message (font_check code)) as Hf.
      { unfold font_check. rewrite Hc. by left. }
      rewrite <- (proj1 (errors_of_kind code)) in Hf. by apply filter_In in Hf as [? _].
Qed.

End ValidatorMore.

Section ValidatorShapes.
Import Validator Checks.
Variable ds : design_system.

Lemma count_char (c : ascii) (s : str) :
  Str.count [c] s = length (List.filter (Ascii.eqb c) s).
Proof.
  unfold Str.count. induction s as [|d s IH]; [done|].
  cbn [Str.count_go Str.startswith List.filter length Nat.sub].
  rewrite andb_true_r. destruct (Ascii.eqb c d); simpl; by rewrite IH.
Qed.

Lemma count_char_perm (c : ascii) (s s' : str) :
  s ≡ₚ s' -> Str.count [c] s = Str.count [c] s'.
Proof.
  intros H. rewrite !count_char.
  induction H as [|x l l' H IH|x y l|l l' l'' H1 IH1 H2 IH2]; simpl.
  - done.
  - destruct (Ascii.eqb c x); simpl; by rewrite IH.
  - by destruct (Ascii.eqb c x), (Ascii.eqb c y).
  - by rewrite IH1.
Qed.

(** X6.  The balance check counts characters and nothing else: a source
    and any rearrangement of its characters get the same SYNTAX_ERROR
    errors, at most three of them; a closing bracket before its opening
    one is not an error. *)
Theorem balance_check_only_counts (code code' : component) :
  ts code ≡ₚ ts code' ->
  let syntax c := List.filter (is_kind SYNTAX_ERROR) (errors (validate_component ds c)) in
  syntax code = syntax code' /\ length (syntax code) <= 3.
Proof.
  intros H. cbv beta zeta.
  rewrite (proj2 (errors_of_kind ds code)), (proj2 (errors_of_kind ds code')).
  unfold balance_check, brackets. cbn [flat_map].
  rewrite !(count_char_perm _ _ _ H). split; [reflexivity|].
  repeat match goal with
         | |- context [Nat.eqb ?a ?b] => destruct (Nat.eqb a b)
         end; simpl; lia.
Qed.

Lemma py_or_empty (a : option (list str)) (b : list str) :
  a = None \/ a = Some [] -> py_or a b = b.
Proof. by intros [->| ->]. Qed.

(** X7.  When the design system has none of the three keys of allowed
    radii, or only empty lists under them, no radius is allowed: an
    UNAUTHORIZED_RADIUS error is reported as soon as a radius is
    detected. *)
Theorem missing_radii_reject_every_radius (code : component) :
  border_radius_values ds = None \/ border_radius_values ds = Some [] ->
  allowed_radii ds = None \/ allowed_radii ds = Some [] ->
  allowed_radii_values ds = None \/ allowed_radii_values ds = Some [] ->
  radii ds = []
  /\ (emits UNAUTHORIZED_RADIUS (validate_component ds code) <-> detected code <> []).
Proof.
  intros H1 H2 H3.
  assert (radii ds = []) as Hr.
  { unfold radii. by rewrite !py_or_empty. }
  split; [exact Hr|].
  rewrite emits_radius, radius_check_fires, Hr. split; [by intros [? _]|].
  intros Hne. split; [done|]. apply Forall_forall. intros r _ [].
Qed.

End ValidatorShapes.

(** ** The texts that a repeated search matches *)

Section Wholes.
Import Re.

Lemma emit_wholes (P : str -> Prop) (gp s : str) (hs : list (nat * groups)) :
  Forall (fun h => P (take h.1 s)) hs -> Forall (fun h => P (whole h)) (emit gp s hs).
Proof.
  intros H. destruct H as [|[n g] hs Hh Hhs]; simpl; [constructor|].
  apply List.Forall_cons; [done|].
  apply Forall_map. eapply Forall_impl; [exact Hhs|]. by intros [n' g'].
Qed.

Lemma hits_here_wholes (P : str -> Prop) (r : t) (prev : option ascii) (s : str) :
  (forall n g, In (n, g) (matches r prev s []) -> P (take n s)) ->
  Forall (fun h => P (take h.1 s)) (hits_here r prev s).
Proof.
  intros H. unfold hits_here.
  destruct (match_here r false prev s) as [[[|n] g]|] eqn:E1; [| |constructor].
  - apply match_here_matches in E1. apply List.Forall_cons; [by eapply H|].
    destruct (match_here r true prev s) as [[n' g']|] eqn:E2; [|constructor].
    apply match_here_matches in E2.
    apply List.Forall_cons; [by eapply H | constructor].
  - apply match_here_matches in E1.
    apply List.Forall_cons; [by eapply H | constructor].
Qed.

Lemma scan_wholes (P : str -> Prop) (r : t) :
  (forall prev s n g, In (n, g) (matches r prev s []) -> P (take n s)) ->
  forall s skip gp prev, Forall (fun h => P (whole h)) (scan r skip gp prev s).1.
Proof.
  intros H. induction s as [|c s IH]; intros skip gp prev.
  - destruct skip; [|by constructor]. rewrite scan_nil.
    pose proof (emit_wholes P (rev gp) [] _ (hits_here_wholes P r prev [] (H prev []))) as He.
    destruct (hits_here r prev []); [constructor | exact He].
  - destruct skip as [|k]; [|rewrite scan_skip; apply IH].
    rewrite scan_cons.
    pose proof (emit_wholes P (rev gp) (c :: s) _
                  (hits_here_wholes P r prev (c :: s) (H prev (c :: s)))) as He.
    destruct (hits_here r prev (c :: s)) as [|h0 hs0]; [apply IH|].
    destruct (taken (h0 :: hs0)) as [|k].
    + specialize (IH 0 [c] (Some c)). destruct (scan r 0 [c] (Some c) s).
      simpl. apply Forall_app. done.
    + specialize (IH k [] (Some c)). destruct (scan r k [] (Some c) s).
      simpl. apply Forall_app. done.
Qed.

End Wholes.

Section ColorShape.
Import Validator Checks.
Variable ds : design_system.

(** A colour literal: [#] and three to six hexadecimal digits. *)
Lemma color_re_shape (prev : option ascii) (s : str) (n : nat) (g : Re.groups) :
  In (n, g) (Re.matches color_re prev s []) ->
  exists h, take n s = "#"%char :: h /\ 3 <= length h <= 6 /\ forallb Char.ishex h = true.
Proof.
  unfold color_re, Re.lit, Re.range. cbn [list_ascii_of_string Re.lit_l Re.matches].
  destruct s as [|c s]; [intros []|].
  unfold Char.lit at 1. destruct (Ascii.eqb_spec "#" c) as [<-|]; [|intros []].
  cbn [flat_map app]. rewrite app_nil_r.
  intros ((j & g') & [= <- <-] & Hj)%in_map_iff.
  apply in_map_iff in Hj as (j' & [= -> <-] & Hj).
  apply in_rev, in_seq in Hj. cbn [drop] in Hj. rewrite drop_0 in Hj.
  pose proof (run_bound Char.ishex s 6) as Hb.
  exists (take j s). split; [done|]. split.
  - pose proof (run_le Char.ishex (Some 6) s). rewrite length_take. lia.
  - apply (run_inside _ _ (Some 6)). lia.
Qed.

(** X8.  Every UNAUTHORIZED_COLOR error names a literal made of [#] and
    three to six hexadecimal digits whose lower-case form is not an
    allowed colour; a [#] followed by fewer than three such digits is never
    reported, and of a longer run of digits only the first six are
    named. *)
Theorem color_errors_name_short_literals (code : component) (e : str) :
  In e (errors (validate_component ds code)) ->
  kind_of e = Some UNAUTHORIZED_COLOR ->
  exists h,
    e = color_message (allowed ds) ("#"%char :: h)
    /\ 3 <= length h <= 6 /\ forallb Char.ishex h = true
    /\ ~ In (Str.lower ("#"%char :: h)) (allowed ds).
Proof.
  intros Hin Hk.
  assert (In e (color_check ds code)) as Hc.
  { rewrite <- color_errors. apply filter_In. split; [done | by apply is_kind_iff]. }
  unfold color_check in Hc. apply in_map_iff in Hc as (c & <- & Hc).
  apply filter_In in Hc as [Hc Hu].
  assert (Forall (fun w => exists h, w = "#"%char :: h /\ 3 <= length h <= 6
                                     /\ forallb Char.ishex h = true)
                 (Re.findall color_re (full_code code))) as F.
  { unfold Re.findall, Re.finditer. apply Forall_map.
    apply (scan_wholes (fun w => exists h, w = "#"%char :: h /\ 3 <= length h <= 6
                                           /\ forallb Char.ishex h = true)).
    intros prev s n g. apply color_re_shape. }
  rewrite Forall_forall in F. destruct (F c) as (h & -> & Hl & Hh); [by apply list_elem_of_In|].
  exists h. split; [done|]. split; [done|]. split; [done|].
  unfold unauthorized in Hu. apply negb_true_iff in Hu.
  intros Hm%str_mem_In. congruence.
Qed.

End ColorShape.

(** ** The artifacts are trimmed *)

Section Trimmed.
Import Re Generator.

Lemma extract_trimmed (raw_text : str) :
  exists c, extract raw_text = Ok c /\ Feedback.trimmed c.
Proof.
  unfold extract, Feedback.trimmed.
  destruct (segments_total raw_text) as (t1 & h1 & ->). cbn [mbind result_bind].
  destruct (inline_template_total t1 h1) as (t2 & h2 & ->). cbn [mbind result_bind].
  destruct (uses_ngmodel t2 h2 raw_text).
  - destruct (list_forms_total (import_forms t2)) as (t3 & ->).
    cbn [mbind result_bind mret result_ret]. eexists. split; [reflexivity|].
    cbn [ts html]. split; apply strip_idem.
  - cbn [mbind result_bind mret result_ret]. eexists. split; [reflexivity|].
    cbn [ts html]. split; apply strip_idem.
Qed.

Lemma reextract_trimmed (previous : component) (raw_text : str) :
  exists c, Corrector.reextract previous raw_text = Ok c /\ Feedback.trimmed c.
Proof.
  unfold Corrector.reextract, Feedback.trimmed.
  set (normalised := sub Corrector.separator_re _ _ 0).
  destruct (Str.contains (py "---HTML---") normalised) eqn:E.
  - destruct (cut_contains _ _ E) as (a & b & Hc).
    unfold Str.split1. rewrite Hc.
    cbn [unpack2 mbind result_bind mret result_ret]. eexists. split; [reflexivity|].
    cbn [ts html]. split; apply strip_idem.
  - cbn [mbind result_bind mret result_ret]. eexists. split; [reflexivity|].
    cbn [ts html]. split; apply strip_idem.
Qed.

(** X9.  The source and the markup that the extractor returns, and those
    that the correction loop takes from a correction response, have no
    blank at either end. *)
Theorem artifacts_are_trimmed :
  (forall raw_text,
      exists c, extract raw_text = Ok c
                /\ Str.strip (ts c) = ts c /\ Str.strip (html c) = html c)
  /\ (forall previous raw_text,
        exists c, Corrector.reextract previous raw_text = Ok c
                  /\ Str.strip (ts c) = ts c /\ Str.strip (html c) = html c).
Proof.
  split; [exact extract_trimmed | exact reextract_trimmed].
Qed.

End Trimmed.

(** ** More on the correction loop *)

Section LoopMore.
Import Corrector Feedback.
Variable reply : world -> request -> str.
Variable ds : design_system.
Variable system_prompt : str.
Variable correction_format : str -> str -> str -> str.

Let correct := Corrector.correct reply ds system_prompt correction_format.
Let run := Corrector.run reply ds system_prompt correction_format.
Let generate_with_correction :=
  Corrector.generate_with_correction reply ds system_prompt correction_format.
Let chain := Feedback.chain reply ds system_prompt correction_format.
Let request_after := Feedback.request_after ds system_prompt correction_format.

Lemma chain_requests (w : world) (a : attempt_record) (extra : list attempt_record)
    (reqs : list request) :
  chain w a extra reqs ->
  length reqs = length extra
  /\ reqs = map request_after (take (length reqs) (a :: extra)).
Proof.
  induction 1 as [|w a b rest reqs _ _ _ _ _ [IHn IH]]; [done|].
  cbn [length take map]. split; [by rewrite IHn|]. f_equal. exact IH.
Qed.

Lemma chain_validated (w : world) (a : attempt_record) (extra : list attempt_record)
    (reqs : list request) :
  chain w a extra reqs ->
  Forall (fun b => validation_of b = Validator.validate_component ds (code b)) extra.
Proof. induction 1; by constructor. Qed.

Lemma correct_chain (m : nat) :
  forall i l w,
    let cur := Attempt (i + 1) (result_ l) (validation_ l) in
    exists l' extra reqs,
      correct (seq i m) l w = Ok (l', w ++ reqs)
      /\ attempts l' = attempts l ++ extra
      /\ chain w cur extra reqs
      /\ length reqs = length extra
      /\ Forall (fun a => Feedback.trimmed (code a)) extra
      /\ (result_ l', validation_ l')
         = match last extra with
           | Some a => (code a, validation_of a)
           | None => (result_ l, validation_ l)
           end
      /\ length extra <= m
      /\ (valid (validation_ l') = true \/ length extra = m).
Proof.
  induction m as [|m IH]; intros i l w cur.
  - exists l, [], []. rewrite !app_nil_r.
    repeat split; try done; [constructor | by right].
  - unfold correct. cbn [seq Corrector.correct]. fold correct.
    destruct (valid (validation_ l)) eqn:Ev.
    + exists l, [], []. rewrite !app_nil_r.
      repeat split; try done; [constructor | simpl; lia | by left].
    + unfold mbind, io_bind, chat.
      set (rq := correction_request ds system_prompt correction_format l).
      destruct (reextract_trimmed (result_ l) (reply w rq)) as (c & Hc & Ht).
      destruct (reextract_total (result_ l) (reply w rq)) as (c' & Hc' & Hraw).
      rewrite Hc in Hc'. injection Hc' as <-.
      unfold lift at 1. rewrite Hc.
      set (v := Validator.validate_component ds c).
      set (l1 := Locals c v (attempts l ++ [Attempt (i + 2) c v])).
      destruct (IH (S i) l1 (w ++ [rq])) as (l' & extra & reqs & Hrun & Ha & Hch & Hn & Htr & Hl & Hb & Hs).
      exists l', (Attempt (i + 2) c v :: extra), (rq :: reqs).
      split; [rewrite Hrun; by rewrite <- app_assoc|].
      split; [rewrite Ha; subst l1; cbn [attempts]; by rewrite <- app_assoc|].
      split.
      { apply (chain_step reply ds system_prompt correction_format w cur
                 (Attempt (i + 2) c v) extra reqs); try done.
        - cbn [attempt]. subst cur. cbn [attempt]. lia.
        - replace (i + 2) with (S i + 1) by lia. exact Hch. }
      split; [simpl; lia|]. split; [by constructor|]. split.
      { rewrite Hl, last_cons. subst l1. cbn [result_ validation_]. by destruct (last extra). }
      split; [simpl; lia|].
      destruct Hs; [by left | right; simpl; lia].
Qed.

Variable generator_fn : str -> option (list message) -> io component.

Lemma run_chain (user_prompt : str) (history : option (list message))
    (w0 w1 : world) (c : component) :
  generator_fn user_prompt (Some (default [] history)) w0 = Ok (c, w1) ->
  let v := Validator.validate_component ds c in
  exists l extra reqs,
    run generator_fn user_prompt history w0 = Ok (l, w1 ++ reqs)
    /\ generate_with_correction generator_fn user_prompt history w0
       = Ok (returned l, w1 ++ reqs)
    /\ attempts l = Attempt 1 c v :: extra
    /\ chain w1 (Attempt 1 c v) extra reqs
    /\ length reqs = length extra
    /\ Forall (fun a => Feedback.trimmed (code a)) extra
    /\ (result_ l, validation_ l)
       = match last extra with
         | Some a => (code a, validation_of a)
         | None => (c, v)
         end
    /\ length extra <= MAX_RETRIES
    /\ (valid (validation_ l) = true \/ length extra = MAX_RETRIES).
Proof.
  intros Hg v.
  destruct (correct_chain MAX_RETRIES 0 (Locals c v [Attempt 1 c v]) w1)
    as (l & extra & reqs & Hc & Ha & Hch & Hn & Ht & Hl & Hb & Hs).
  exists l, extra, reqs.
  assert (run generator_fn user_prompt history w0 = Ok (l, w1 ++ reqs)) as Hr.
  { unfold run, Corrector.run, mbind, io_bind. rewrite Hg. exact Hc. }
  split; [exact Hr|]. split.
  { unfold generate_with_correction, Corrector.generate_with_correction, mbind, io_bind.
    fold run. rewrite Hr. reflexivity. }
  done.
Qed.

(** X10.  Each correction request is made of the system prompt and one
    user message built from the errors and the raw text of the attempt
    before it, and of nothing else (the conversation history is not part
    of it); it is sent only after an invalid attempt, and the model's
    answer to it is the raw text of the next attempt, which carries the
    next number and the validator's verdict on its own component. *)
Theorem corrections_feed_on_the_attempt_before (user_prompt : str)
    (history : option (list message)) (w0 w1 : world) (c : component) :
  generator_fn user_prompt (Some (default [] history)) w0 = Ok (c, w1) ->
  let first := Attempt 1 c (Validator.validate_component ds c) in
  exists l extra reqs,
    run generator_fn user_prompt history w0 = Ok (l, w1 ++ reqs)
    /\ attempts l = first :: extra
    /\ chain w1 first extra reqs
    /\ reqs = map request_after (take (length reqs) (attempts l)).
Proof.
  intros Hg first.
  destruct (run_chain _ _ _ _ _ Hg) as (l & extra & reqs & Hr & _ & Ha & Hch & Hn & _).
  exists l, extra, reqs. split; [exact Hr|]. split; [exact Ha|]. split; [exact Hch|].
  rewrite Ha. by apply chain_requests in Hch as [_ Hq].
Qed.

(** X11.  When the first component is valid the call returns it at once,
    as the only attempt, and sends no correction request. *)
Theorem valid_first_attempt_ends_the_call (user_prompt : str)
    (history : option (list message)) (w0 w1 : world) (c : component) :
  generator_fn user_prompt (Some (default [] history)) w0 = Ok (c, w1) ->
  valid (Validator.validate_component ds c) = true ->
  generate_with_correction generator_fn user_prompt history w0
  = Ok (Outcome c (Validator.validate_component ds c) 1 true, w1).
Proof.
  intros Hg Hv.
  unfold generate_with_correction, Corrector.generate_with_correction, Corrector.run,
    mbind, io_bind.
  rewrite Hg. unfold MAX_RETRIES. cbn [seq Corrector.correct validation_].
  rewrite Hv. unfold mret, io_ret, returned.
  cbn [result_ validation_ attempts length]. by rewrite Hv.
Qed.

(** X12.  A call that reports failure has used all its retries: it made
    1 + MAX_RETRIES attempts and sent MAX_RETRIES correction requests;
    and a call reports success exactly when the list of errors it returns
    is empty. *)
Theorem failure_only_after_all_retries (user_prompt : str)
    (history : option (list message)) (w0 w1 : world) (c : component) :
  generator_fn user_prompt (Some (default [] history)) w0 = Ok (c, w1) ->
  exists out reqs,
    generate_with_correction generator_fn user_prompt history w0 = Ok (out, w1 ++ reqs)
    /\ (success out = false ->
        attempts_made out = 1 + MAX_RETRIES /\ length reqs = MAX_RETRIES)
    /\ (success out = true <-> errors (final_validation out) = []).
Proof.
  intros Hg.
  destruct (run_chain _ _ _ _ _ Hg)
    as (l & extra & reqs & _ & Hgw & Ha & Hch & Hn & _ & Hl & _ & Hs).
  exists (returned l), reqs. split; [exact Hgw|].
  cbn [returned success attempts_made final_validation]. split.
  - intros Hf. rewrite Ha. cbn [length]. destruct Hs as [Hs|Hs]; [congruence|]. lia.
  - assert (validation_ l = Validator.validate_component ds (result_ l)) as ->.
    { destruct (last extra) as [a|] eqn:El; injection Hl as -> ->; [|done].
      apply chain_validated in Hch. rewrite Forall_forall in Hch.
      apply Hch. apply last_Some in El as [front ->].
      apply list_elem_of_In, in_app_iff. right. by left. }
    change (valid (Validator.validate_component ds (result_ l)))
      with (Nat.eqb (length (errors (Validator.validate_component ds (result_ l)))) 0).
    rewrite Nat.eqb_eq. apply length_zero_iff_nil.
Qed.

End LoopMore.

(** ** The endpoint *)

Section Endpoint.
Import Corrector Feedback.
Variable reply : world -> request -> str.
Variable ds : design_system.
Variable system_prompt : str.
Variable correction_format : str -> str -> str -> str.

Lemma chain_last (w : world) (a : attempt_record) (extra : list attempt_record)
    (reqs : list request) :
  Feedback.chain reply ds system_prompt correction_format w a extra reqs ->
  forall b, last extra = Some b ->
  exists front rq, reqs = front ++ [rq] /\ raw (code b) = reply (w ++ front) rq.
Proof.
  induction 1 as [|w a b rest reqs Hv Hraw Hn Hval Hch IH]; intros z Hz; [done|].
  rewrite last_cons in Hz. destruct (last rest) as [y|] eqn:El.
  - injection Hz as ->. destruct (IH z eq_refl) as (front & rq & -> & Hr).
    exists (Feedback.request_after ds system_prompt correction_format a :: front), rq.
    split; [done|]. by rewrite <- app_assoc in Hr.
  - injection Hz as <-. apply last_None in El. subst rest. inversion Hch; subst.
    exists [], (Feedback.request_after ds system_prompt correction_format a).
    split; [done|]. by rewrite app_nil_r.
Qed.

Lemma generate_component_spec (user_prompt : str) (history : option (list message))
    (w : world) :
  let messages :=
    [Message (py "system") system_prompt] ++ default [] history
    ++ [Message (py "user") (Generator.build_generation_prompt ds user_prompt)] in
  exists c,
    Generator.generate_component reply ds system_prompt user_prompt history w
    = Ok (c, w ++ [messages])
    /\ raw c = reply w messages /\ Feedback.trimmed c.
Proof.
  cbv zeta. unfold Generator.generate_component, chat, mbind, io_bind, lift.
  set (messages := [Message (py "system") system_prompt] ++ default [] history ++ _).
  destruct (extract_trimmed (reply w messages)) as (c & Hc & Ht).
  destruct (extract_total (reply w messages)) as (c' & Hc' & Hraw).
  rewrite Hc in Hc'. injection Hc' as <-. rewrite Hc. eauto.
Qed.

(** X13.  Whatever the request and whatever the model answers,
    [generate] returns a body and raises nothing.  It sends as many
    requests to the model as the attempts it reports, between 1 and
    1 + MAX_RETRIES; the first is the system prompt, the conversation
    history in its order and the generation prompt; the raw output it
    returns is the model's answer to the last request.  The body is
    flagged valid exactly when its list of errors is empty, an invalid
    body is returned only after all retries, and its source and markup
    have no blank at either end. *)
Theorem generate_endpoint (req : Main.GenerateRequest) (w : world) :
  exists b front rq,
    Main.generate reply ds system_prompt correction_format req w
    = Ok (b, w ++ front ++ [rq])
    /\ length (front ++ [rq]) = Main.attempts_made b
    /\ 1 <= Main.attempts_made b <= 1 + MAX_RETRIES
    /\ head (front ++ [rq])
       = Some ([Message (py "system") system_prompt] ++ Main.conversation_history req
               ++ [Message (py "user")
                     (Generator.build_generation_prompt ds (Main.prompt req))])
    /\ Main.raw_output b = reply (w ++ front) rq
    /\ (Main.is_valid b = true <-> Main.error_list b = [])
    /\ (Main.is_valid b = false -> Main.attempts_made b = 1 + MAX_RETRIES)
    /\ Str.strip (Main.ts_code b) = Main.ts_code b
    /\ Str.strip (Main.html_code b) = Main.html_code b.
Proof.
  destruct (generate_component_spec (Main.prompt req) (Some (Main.conversation_history req)) w)
    as (c & Hg & Hraw & Htc).
  cbn [default from_option id] in Hg, Hraw.
  set (messages := [Message (py "system") system_prompt] ++ Main.conversation_history req
                   ++ [Message (py "user")
                         (Generator.build_generation_prompt ds (Main.prompt req))]) in *.
  destruct (run_chain reply ds system_prompt correction_format
              (Generator.generate_component reply ds system_prompt)
              (Main.prompt req) (Some (Main.conversation_history req)) w (w ++ [messages]) c Hg)
    as (l & extra & reqs & _ & Hgw & Ha & Hch & Hn & Ht & Hl & Hb & Hs).
  assert (exists front rq,
             messages :: reqs = front ++ [rq]
             /\ raw (result_ l) = reply (w ++ front) rq
             /\ Feedback.trimmed (result_ l)
             /\ validation_ l = Validator.validate_component ds (result_ l))
    as (front & rq & Hq & Hr & Htr & Hval).
  { destruct (last extra) as [z|] eqn:El; injection Hl as -> ->.
    - destruct (chain_last _ _ _ _ Hch z El) as (fr & rq & -> & Hz).
      exists (messages :: fr), rq. split; [done|].
      split; [by rewrite <- app_assoc in Hz|].
      pose proof (chain_validated reply ds system_prompt correction_format _ _ _ _ Hch) as Fv.
      apply last_Some in El as [pre ->].
      apply Forall_app in Ht as [_ Ht]. apply Forall_app in Fv as [_ Fv].
      inversion Ht; inversion Fv; subst. done.
    - apply last_None in El. subst extra. inversion Hch; subst.
      exists [], messages. rewrite app_nil_r. done. }
  exists (Main.Body (ts (result_ l)) (html (result_ l)) (raw (result_ l))
            (valid (validation_ l)) (errors (validation_ l)) (length (attempts l))).
  exists front. exists rq.
  unfold world, request in *. rewrite <- Hq.
  split.
  { unfold Main.generate, mbind, io_bind.
    rewrite Hgw. cbn [returned final_code final_validation attempts_made].
    change (messages :: reqs) with ([messages] ++ reqs). by rewrite app_assoc. }
  cbn [Main.attempts_made Main.raw_output Main.is_valid Main.error_list
       Main.ts_code Main.html_code length head].
  rewrite Ha. cbn [length].
  split; [simpl; lia|]. split; [lia|]. split; [reflexivity|]. split; [exact Hr|].
  split.
  { rewrite Hval.
    change (valid (Validator.validate_component ds (result_ l)))
      with (Nat.eqb (length (errors (Validator.validate_component ds (result_ l)))) 0).
    rewrite Nat.eqb_eq. apply length_zero_iff_nil. }
  split.
  { intros Hf. destruct Hs as [Hs|Hs]; [congruence | lia]. }
  exact Htr.
Qed.

End Endpoint.

(** ** The start of the markup *)

Section Markup.
Import Re Generator.

Lemma lt_here (prev : option ascii) (s : str) (n : nat) (g : groups) :
  match_here lt_re false prev s = Some (n, g) ->
  exists rest, s = "<"%char :: rest /\ n = 1.
Proof.
  unfold match_here, lt_re, lit. cbn [list_ascii_of_string lit_l matches].
  destruct s as [|c s]; [done|].
  destruct (Char.lit "<" c) eqn:E; [|done].
  apply Ascii.eqb_eq in E. subst c. simpl. intros [= <- <-]. eauto.
Qed.

Lemma lt_at_head (prev : option ascii) (s : str) :
  match_here lt_re false prev ("<"%char :: s) = Some (1, []).
Proof. reflexivity. Qed.

(** [search] for [<] finds the first [<] of the text, if there is one. *)
Lemma search_lt (s : str) :
  forall prev,
    match search_from lt_re prev s with
    | Some f => exists rest, drop (start f) s = "<"%char :: rest
    | None => ~ In "<"%char s
    end.
Proof.
  induction s as [|c s IH]; intros prev.
  - rewrite search_from_nil. cbn. tauto.
  - rewrite search_from_cons.
    destruct (match_here lt_re false prev (c :: s)) as [[n g]|] eqn:E.
    + destruct (lt_here _ _ _ _ E) as (rest & -> & _). cbn [start]. rewrite drop_0. eauto.
    + specialize (IH (Some c)).
      destruct (search_from lt_re (Some c) s) as [f|].
      * cbn [start drop]. exact IH.
      * intros [-> | H]; [|by apply IH]. by rewrite lt_at_head in E.
Qed.

(** A trailing run of dashes or backquotes starts with a blank, a dash
    or a backquote. *)
Lemma trailer_needs (prev : option ascii) (c : ascii) (t : str) :
  Char.isspace c = false -> Char.lit "-" c = false -> Char.lit BQ c = false ->
  match_here trailer_re false prev (c :: t) = None.
Proof.
  intros H1 H2 H3. unfold match_here, trailer_re, star, atleast.
  cbn [matches run]. rewrite H1. cbn [seq Nat.sub rev app map flat_map drop].
  cbn [matches run]. rewrite H2, H3. reflexivity.
Qed.

(** The text before the first match of [scan] starts with the text
    skipped so far. *)
Lemma scan_gap (r : t) (s : str) :
  forall (skip : nat) (gp : str) (prev : option ascii) (hs : list hit) (tl : str),
    scan r skip gp prev s = (hs, tl) ->
    match hs with
    | [] => exists x, tl = rev gp ++ x
    | h :: _ => exists x, gap h = rev gp ++ x
    end.
Proof.
  induction s as [|c s IH]; intros skip gp prev hs tl.
  - destruct skip as [|k].
    + rewrite scan_nil. destruct (hits_here r prev []) as [|[n g] hs0].
      * intros [= <- <-]. exists []. by rewrite app_nil_r.
      * intros [= <- <-]. cbn [emit gap]. exists []. by rewrite app_nil_r.
    + cbn [scan]. intros [= <- <-]. exists []. by rewrite app_nil_r.
  - destruct skip as [|k].
    + rewrite scan_cons. destruct (hits_here r prev (c :: s)) as [|[n g] hs0].
      * intros H. apply IH in H. cbn [rev] in H.
        destruct hs as [|h hs]; destruct H as [x Hx]; exists (c :: x);
          rewrite Hx, <- app_assoc; done.
      * destruct (match taken ((n, g) :: hs0) with
                  | 0 => scan r 0 [c] (Some c) s
                  | S k => scan r k [] (Some c) s
                  end) as [more tl'].
        intros [= <- <-]. cbn [emit app gap]. exists []. by rewrite app_nil_r.
    + rewrite scan_skip. apply IH.
Qed.

(** A substitution keeps the first character of a text at which the
    pattern cannot match. *)
Lemma sub_keeps_head (r : t) (repl : hit -> str) (c : ascii) (s : str) (count : nat) :
  match_here r false None (c :: s) = None ->
  exists rest, sub r repl (c :: s) count = c :: rest.
Proof.
  intros H. unfold sub, finditer. rewrite scan_cons, hits_here_nil by done.
  destruct (scan r 0 [c] (Some c) s) as [hs tl] eqn:E.
  apply scan_gap in E. cbn [rev app] in E.
  destruct hs as [|h hs].
  - destruct E as [x ->]. destruct count; cbn; eauto.
  - destruct E as [x Hx].
    destruct count as [|n]; cbn [limit take drop flat_map]; rewrite Hx; cbn; eauto.
Qed.

Lemma strip_keeps_head (c : ascii) (s : str) :
  Char.isspace c = false -> exists rest, Str.strip (c :: s) = c :: rest.
Proof.
  intros H. unfold Str.strip. rewrite lstrip_fixed by done. by apply rstrip_cons.
Qed.

(** The markup kept of a segment has nothing before its first [<]. *)
Lemma markup_head (part : str) :
  let out :=
    Str.strip (sub trailer_re (fun _ => [])
                 (Str.strip match search lt_re part with
                            | Some m => drop (start m) part
                            | None => part
                            end) 0) in
  ~ In "<"%char out \/ exists rest, out = "<"%char :: rest.
Proof.
  cbv zeta. pose proof (search_lt part None) as H. unfold search.
  destruct (search_from lt_re None part) as [f|].
  - right. destruct H as [rest ->].
    destruct (strip_keeps_head "<" rest eq_refl) as [r1 ->].
    destruct (sub_keeps_head trailer_re (fun _ => []) "<" r1 0) as [r2 ->].
    { by apply trailer_needs. }
    by apply strip_keeps_head.
  - left. intros Hin. apply H.
    apply list_elem_of_In. apply list_elem_of_In in Hin.
    eapply elem_of_sublist; [exact Hin|].
    etrans; [apply strip_sublist|]. etrans; [apply sub_delete_sublist|].
    apply strip_sublist.
Qed.

(** X15.  The markup has no text before its first tag: the markup that
    the extractor returns either contains no [<], or starts with [<], or
    was taken from a template inlined in the source (the separate markup
    was blank); the markup that the correction loop records for a
    correction attempt either contains no [<] or starts with [<]. *)
Theorem markup_starts_at_its_first_tag :
  (forall raw_text,
      exists c,
        extract raw_text = Ok c
        /\ (~ In "<"%char (html c)
            \/ (exists rest, html c = "<"%char :: rest)
            \/ exists ts_code html_code,
                 segments raw_text = Ok (ts_code, html_code)
                 /\ search tpl_re ts_code <> None
                 /\ Str.strip html_code = []))
  /\ (forall previous raw_text,
        exists c,
          Corrector.reextract previous raw_text = Ok c
          /\ (~ In "<"%char (html c) \/ exists rest, html c = "<"%char :: rest)).
Proof.
  split.
  - intros raw_text.
    destruct (extract_total raw_text) as (c & Hc & _). exists c. split; [exact Hc|].
    revert Hc. unfold extract.
    destruct (segments raw_text) as [[t1 h1]|e] eqn:Es; [|done].
    cbn [mbind result_bind].
    assert (~ In "<"%char (Str.strip h1) \/ exists rest, Str.strip h1 = "<"%char :: rest)
      as Hh.
    { revert Es. unfold segments.
      destruct (if Nat.eqb _ 2 then _ else _) as [[tp hp]|e]; [|done].
      cbn [mbind result_bind mret result_ret]. intros [= _ <-]. apply markup_head. }
    unfold inline_template.
    destruct (search tpl_re t1) as [m|] eqn:Et.
    + destruct (Str.eqb h1 [] || Str.eqb (Str.strip h1) []) eqn:Eb.
      * intros _. right. right. exists t1, h1. split; [done|]. split; [by rewrite Et|].
        apply orb_true_iff in Eb as [Eb|Eb]; apply str_eqb_eq in Eb; [subst; reflexivity | done].
      * cbn [mbind result_bind mret result_ret].
        destruct (if uses_ngmodel t1 h1 raw_text then _ else _) as [t3|e]; [|done].
        cbn [mbind result_bind mret result_ret]. intros [= <-]. cbn [html].
        destruct Hh; [by left | right; by left].
    + cbn [mbind result_bind mret result_ret].
      destruct (if uses_ngmodel t1 h1 raw_text then _ else _) as [t3|e]; [|done].
      cbn [mbind result_bind mret result_ret]. intros [= <-]. cbn [html].
      destruct Hh; [by left | right; by left].
  - intros previous raw_text.
    destruct (reextract_total previous raw_text) as (c & Hc & _). exists c.
    split; [exact Hc|]. revert Hc. unfold Corrector.reextract.
    destruct (if Str.contains _ _ then _ else _) as [[tp hp]|e]; [|done].
    cbn [mbind result_bind mret result_ret]. intros [= <-]. cbn [html].
    apply markup_head.
Qed.

End Markup.

(** ** A response without separator *)

Section NoSeparator.
Import Re Generator.

Lemma split_no_match (r : t) (s : str) (maxsplit : nat) :
  search r s = None -> split r s maxsplit = [s].
Proof.
  intros H. unfold split. rewrite finditer_no_match by done. by destruct maxsplit.
Qed.

(** X16.  A response in which, once cleaned and freed of log lines and
    asides, there is neither a separator nor one of the seven opening
    tags that the extractor knows, is taken as source as a whole: the
    markup of the two segments is empty, and the markup that the
    extractor returns is empty unless the source has an inlined
    template. *)
Theorem no_separator_no_tag_no_markup (raw_text : str) :
  let cleaned :=
    sub aside_re (fun _ => [])
        (sub log_line_re (fun _ => []) (_clean_output raw_text) 0) 0 in
  search sep_pattern cleaned = None ->
  search tag_re cleaned = None ->
  exists ts_code c,
    segments raw_text = Ok (ts_code, [])
    /\ ts_code `sublist_of` cleaned
    /\ extract raw_text = Ok c
    /\ (html c = [] \/ search tpl_re ts_code <> None).
Proof.
  cbv zeta. intros Hsep Htag.
  destruct (extract_total raw_text) as (c & Hc & _).
  assert (exists ts_code,
             segments raw_text = Ok (ts_code, [])
             /\ ts_code `sublist_of`
                  sub aside_re (fun _ => [])
                      (sub log_line_re (fun _ => []) (_clean_output raw_text) 0) 0)
    as (t1 & Hs & Hsub).
  { unfold segments. rewrite (split_no_match _ _ 1 Hsep). cbn [length Nat.eqb].
    rewrite Htag. cbn [mbind result_bind mret result_ret].
    eexists. split; [reflexivity|]. apply trimmed_sublist. }
  exists t1, c. split; [exact Hs|]. split; [exact Hsub|]. split; [exact Hc|].
  revert Hc. unfold extract. rewrite Hs. cbn [mbind result_bind].
  unfold inline_template.
  destruct (search tpl_re t1) as [m|] eqn:Et; [intros _; by right|].
  cbn [mbind result_bind mret result_ret].
  destruct (if uses_ngmodel t1 [] raw_text then _ else _) as [t3|e]; [|done].
  cbn [mbind result_bind mret result_ret]. intros [= <-]. by left.
Qed.

End NoSeparator.

(** ** The further properties on sample inputs *)

Section MoreSamples.
Import Sample.

Lemma clean_output_plain_witness :
  Generator._clean_output plain_response = Str.strip plain_response.
Proof.
  apply (clean_output_without_backquote plain_response).
  intros H.
  assert (existsb (Ascii.eqb BQ) plain_response = true) as E.
  { apply existsb_exists. exists BQ. split; [exact H | apply Ascii.eqb_refl]. }
  vm_compute in E. discriminate E.
Defined.

(** The validator asks for Inter whatever font the design system
    requires. *)
Lemma roboto_design_witness :
  Validator.validate_component roboto_design black_text
  = Validator.validate_component design black_text
  /\ Checks.emits Checks.MISSING_FONT (Validator.validate_component design black_text).
Proof.
  destruct (font_check_ignores_required_font design roboto_design black_text)
    as [He Hf]; try reflexivity.
  split; [exact He|]. apply Hf. vm_compute. reflexivity.
Defined.

Lemma closed_first_witness :
  List.filter (Checks.is_kind Checks.SYNTAX_ERROR)
              (errors (Validator.validate_component design closed_first))
  = List.filter (Checks.is_kind Checks.SYNTAX_ERROR)
                (errors (Validator.validate_component design opened_first))
  /\ length (List.filter (Checks.is_kind Checks.SYNTAX_ERROR)
                         (errors (Validator.validate_component design closed_first))) <= 3.
Proof.
  apply (balance_check_only_counts design closed_first opened_first).
  apply perm_swap.
Defined.

Lemma no_radii_witness :
  Checks.radii no_radii_design = []
  /\ Checks.emits Checks.UNAUTHORIZED_RADIUS
       (Validator.validate_component no_radii_design mixed_radii).
Proof.
  destruct (missing_radii_reject_every_radius no_radii_design mixed_radii)
    as [Hr He].
  - by left.
  - by left.
  - by right.
  - split; [exact Hr|]. apply He. vm_compute. discriminate.
Defined.

Lemma black_literal_witness :
  exists h,
    py "UNAUTHORIZED_COLOR: '#000000' is not in the design system. Allowed: ['#ffffff']"
    = Validator.color_message (Checks.allowed design) ("#"%char :: h)
    /\ 3 <= length h <= 6 /\ forallb Char.ishex h = true
    /\ ~ In (Str.lower ("#"%char :: h)) (Checks.allowed design).
Proof.
  apply (color_errors_name_short_literals design black_text).
  - vm_compute. left. reflexivity.
  - vm_compute. reflexivity.
Defined.

(** The model answers the first request with a source that has neither
    decorator nor font: one correction request follows, made from that
    attempt. *)
Lemma corrections_feed_witness :
  exists l reqs w1,
    Corrector.run reply design system_prompt correction_format generator
      (py "a card") None [] = Ok (l, w1 ++ reqs)
    /\ reqs = map (Feedback.request_after design system_prompt correction_format)
                  (take (length reqs) (Corrector.attempts l)).
Proof.
  edestruct (corrections_feed_on_the_attempt_before reply design system_prompt
               correction_format generator (py "a card") None [])
    as (l & extra & reqs & Hr & _ & _ & Hq).
  - vm_compute. reflexivity.
  - exists l, reqs. eexists. split; [exact Hr | exact Hq].
Defined.

Lemma obedient_witness :
  exists c w1,
    Corrector.generate_with_correction obedient design system_prompt correction_format
      obedient_generator (py "a card") None []
    = Ok (Corrector.Outcome c (Validator.validate_component design c) 1 true, w1)
    /\ length w1 = 1.
Proof.
  eexists _, _. split.
  - apply (valid_first_attempt_ends_the_call obedient design system_prompt
             correction_format obedient_generator (py "a card") None []).
    + vm_compute. reflexivity.
    + vm_compute. reflexivity.
  - reflexivity.
Defined.

(** The stubborn model: failure is reported after three attempts and two
    correction requests. *)
Lemma stubborn_failure_witness :
  exists out reqs w1,
    Corrector.generate_with_correction stubborn design system_prompt correction_format
      stubborn_generator (py "a card") None [] = Ok (out, w1 ++ reqs)
    /\ Corrector.success out = false
    /\ Corrector.attempts_made out = 3
    /\ length reqs = 2.
Proof.
  edestruct (failure_only_after_all_retries stubborn design system_prompt
               correction_format stubborn_generator (py "a card") None [])
    as (out & reqs & Hg & Hf & _).
  - vm_compute. reflexivity.
  - assert (Corrector.success out = false) as Hs.
    { vm_compute in Hg. injection Hg as <- _. reflexivity. }
    exists out, reqs. eexists. split; [exact Hg|]. split; [exact Hs|]. exact (Hf Hs).
Defined.

(** A correction response without separator: the markup of the attempt
    before is kept. *)
Lemma kept_markup_witness :
  exists c,
    Corrector.reextract previous source_only_response = Ok c
    /\ html c `sublist_of` html previous
    /\ ts c `sublist_of`
         Re.sub Corrector.separator_re (fun _ => py "---HTML---")
           (Generator._clean_output source_only_response) 0.
Proof.
  apply (correction_without_separator previous source_only_response).
  vm_compute. reflexivity.
Defined.

(** A response whose markup is a paragraph after the source, without
    separator: the paragraph stays in the source. *)
Lemma paragraph_witness :
  exists ts_code c,
    Generator.segments paragraph_response = Ok (ts_code, [])
    /\ Generator.extract paragraph_response = Ok c
    /\ html c = [].
Proof.
  edestruct (no_separator_no_tag_no_markup paragraph_response)
    as (t & c & Hs & _ & Hc & Hh).
  - vm_compute. reflexivity.
  - vm_compute. reflexivity.
  - exists t, c. split; [exact Hs|]. split; [exact Hc|].
    destruct Hh as [Hh|Hh]; [exact Hh|]. exfalso. apply Hh.
    vm_compute in Hs. injection Hs as <-. vm_compute. reflexivity.
Defined.

End MoreSamples.
